(** * speyl: string distances, similarities and the best-match selector

    A shallow embedding of the Go package [algorithms] of Descent098/speyl
    (levenshtein, indel and jaro sources, utilities.go) and the properties
    its specification states about it.

    Conventions of the embedding
    - a Go [string] is its sequence of bytes, [list Z] with every byte in
      [0, 256); [len] is the byte length and [s[i]] a byte, as in Go;
    - [[]rune(s)] is Go's UTF-8 decoding, one U+FFFD per undecodable byte;
    - [int] is [Z]: every integer the code computes is bounded by the
      lengths of its inputs, so 64-bit wrap-around never occurs;
    - [float32] is IEEE-754 binary32, through the operations of the
      Standard Library's [SpecFloat] at precision 24 and [emax] 128;
    - slices are lists; an index out of range makes the Go program panic,
      which is [None] in the option monad. *)

From stdpp Require Import gmap list strings.
From Stdlib Require Import ZArith Lia QArith Qabs.
From Stdlib Require Import SpecFloat.

Local Open Scope Z_scope.

(** ** Strings *)

Abbreviation byte := Z.
Abbreviation rune := Z.
Abbreviation gostring := (list byte).

Definition len {A} (s : list A) : Z := Z.of_nat (length s).

(** A string literal of the source, as its bytes. *)
Definition str (s : string) : gostring :=
  (λ c, Z.of_N (Ascii.N_of_ascii c)) <$> String.list_ascii_of_string s.

(** ** float32 *)

Module F32.
Definition prec : Z := 24.
Definition emax : Z := 128.

Definition float32 := spec_float.

Definition zero : float32 := S754_zero false.
Definition of_int (n : Z) : float32 := binary_normalize prec emax n 0 false.
Definition one : float32 := of_int 1.
Definition three : float32 := of_int 3.

Definition add : float32 → float32 → float32 := SFadd prec emax.
Definition sub : float32 → float32 → float32 := SFsub prec emax.
Definition div : float32 → float32 → float32 := SFdiv prec emax.

(** Go's [x > y] and [x < y] on floats: false when unordered. *)
Definition gt (x y : float32) : bool := SFltb y x.
Definition lt (x y : float32) : bool := SFltb x y.

(** The rational a finite float denotes. *)
Definition to_Q (x : float32) : option Q :=
  match x with
  | S754_zero _ => Some 0%Q
  | S754_finite s m e =>
      let v := match e with
               | Zneg p => Qmake (Zpos m) (2 ^ p)%positive
               | _ => inject_Z (Zpos m * 2 ^ e)
               end in
      Some (if s then Qopp v else v)
  | _ => None
  end.
End F32.
Export F32.

(** ** utilities.go

    A [DistanceAlgorithm] or [SimilarityAlgorithm] is any Go function of
    that type: it returns a value or panics ([None]). *)

Record Suggestion := { Likelihood : float32; Word : gostring }.

Definition DistanceAlgorithm := gostring → gostring → option Z.
Definition SimilarityAlgorithm := gostring → gostring → option float32.

Definition eqstr (a b : gostring) : bool := bool_decide (a = b).

Definition CalculateSimilarity (inputString targetString : gostring)
    (algorithm : DistanceAlgorithm) : option float32 :=
  let inputLength := len inputString in
  let targetLength := len targetString in
  if eqstr inputString targetString then Some one
  else
    distance ← algorithm inputString targetString;
    let normalized_distance :=
      div (of_int distance) (add (of_int inputLength) (of_int targetLength)) in
    Some (sub one normalized_distance).

(** The body of the [for ... range validStrings] loop, on the two
    variables [highestRatio] and [result] it updates. *)
Definition suggest_step (inputString : gostring) (algorithm : SimilarityAlgorithm)
    (st : float32 * gostring) (currentString : gostring)
    : option (float32 * gostring) :=
  likelihood ← algorithm inputString currentString;
  Some (if gt likelihood st.1 then (likelihood, currentString) else st).

Fixpoint suggest_loop (inputString : gostring) (algorithm : SimilarityAlgorithm)
    (validStrings : list gostring) (st : float32 * gostring)
    : option (float32 * gostring) :=
  match validStrings with
  | [] => Some st
  | currentString :: rest =>
      st' ← suggest_step inputString algorithm st currentString;
      suggest_loop inputString algorithm rest st'
  end.

Definition SuggestWord (inputString : gostring) (validStrings : list gostring)
    (algorithm : SimilarityAlgorithm) : option Suggestion :=
  st ← suggest_loop inputString algorithm validStrings (zero, []);
  Some {| Likelihood := st.1; Word := st.2 |}.

Definition SuggestWordWithThreshold (inputString : gostring)
    (validStrings : list gostring) (threshold : float32)
    (algorithm : SimilarityAlgorithm) : option gostring :=
  suggested ← SuggestWord inputString validStrings algorithm;
  Some (if negb (gt (Likelihood suggested) threshold) then []
        else Word suggested).

(** What the loop of [SuggestWord] maintains about the pair it updates,
    [seen] being the candidates already scanned. *)
Definition selected (inputString : gostring) (algorithm : SimilarityAlgorithm)
    (seen : list gostring) (st : float32 * gostring) : Prop :=
  st = (zero, []) ∨
  (st.2 ∈ seen ∧ gt st.1 zero = true ∧ algorithm inputString st.2 = Some st.1).

(** ** UTF-8 decoding: the conversion [[]rune(s)]

    Go decodes a string with the tables of its [unicode/utf8] package: a
    leading byte fixes how many continuation bytes follow and the range of
    the first of them; the others lie in 0x80..0xBF. A byte that starts no
    well-formed sequence decodes to U+FFFD and is skipped alone. *)

Definition RuneError : rune := 65533.

Definition in_range (lo hi b : Z) : bool := (lo <=? b) && (b <=? hi).

Definition is_cont (b : byte) : bool := in_range 128 191 b.

(** Number of continuation bytes after leading byte [p0], and the range
    accepted for the first of them. *)
Definition lead_info (p0 : byte) : option (nat * (Z * Z)) :=
  if in_range 194 223 p0 then Some (1%nat, (128, 191))
  else if p0 =? 224 then Some (2%nat, (160, 191))
  else if in_range 225 236 p0 then Some (2%nat, (128, 191))
  else if p0 =? 237 then Some (2%nat, (128, 159))
  else if in_range 238 239 p0 then Some (2%nat, (128, 191))
  else if p0 =? 240 then Some (3%nat, (144, 191))
  else if in_range 241 243 p0 then Some (3%nat, (128, 191))
  else if p0 =? 244 then Some (3%nat, (128, 143))
  else None.

(** The code point of leading byte [p0] followed by continuation bytes [cs]. *)
Definition assemble (p0 : byte) (cs : list byte) : rune :=
  match cs with
  | [b1] => Z.lor (Z.shiftl (Z.land p0 31) 6) (Z.land b1 63)
  | [b1; b2] =>
      Z.lor (Z.lor (Z.shiftl (Z.land p0 15) 12) (Z.shiftl (Z.land b1 63) 6))
            (Z.land b2 63)
  | [b1; b2; b3] =>
      Z.lor (Z.lor (Z.lor (Z.shiftl (Z.land p0 7) 18) (Z.shiftl (Z.land b1 63) 12))
                   (Z.shiftl (Z.land b2 63) 6))
            (Z.land b3 63)
  | _ => p0
  end.

(** The continuation bytes of the sequence [p0] starts at the head of
    [p0 :: s1], when that sequence is well formed. *)
Definition sequence_of (p0 : byte) (s1 : gostring) : option (list byte) :=
  if in_range 0 127 p0 then Some []
  else
    match lead_info p0 with
    | None => None
    | Some (n, (lo, hi)) =>
        let cs := take n s1 in
        match cs with
        | b1 :: rest =>
            if bool_decide (length cs = n) && in_range lo hi b1 && forallb is_cont rest
            then Some cs else None
        | [] => None
        end
    end.

(** [utf8.DecodeRuneInString]: the first rune of [s] and its width. *)
Definition DecodeRuneInString (s : gostring) : rune * nat :=
  match s with
  | [] => (RuneError, 0%nat)
  | p0 :: s1 =>
      match sequence_of p0 s1 with
      | Some cs => (assemble p0 cs, S (length cs))
      | None => (RuneError, 1%nat)
      end
  end.

(** [[]rune(s)]: decode at offset 0, move on by the width, until the end.
    [skip] counts the bytes of the current rune still to pass over. *)
Fixpoint runes_from (skip : nat) (s : gostring) : list rune :=
  match s with
  | [] => []
  | _ :: s' =>
      match skip with
      | S k => runes_from k s'
      | O => let '(r, size) := DecodeRuneInString s in r :: runes_from (size - 1) s'
      end
  end.

Definition runes (s : gostring) : list rune := runes_from 0 s.

(** [utf8.ValidString]: every sequence of [s] is well formed. *)
Fixpoint valid_from (skip : nat) (s : gostring) : bool :=
  match s with
  | [] => bool_decide (skip = 0%nat)
  | p0 :: s' =>
      match skip with
      | S k => valid_from k s'
      | O => match sequence_of p0 s' with
             | Some cs => valid_from (length cs) s'
             | None => false
             end
      end
  end.

Definition ValidString (s : gostring) : bool := valid_from 0 s.

(** ** Levenshtein distance *)

(** [RecursiveLevenshtein]: the recurrence on the first characters. The
    source runs it on the bytes of its arguments. *)
Fixpoint RecursiveLevenshtein (inputString : list Z) : list Z → Z :=
  fix on_target (targetString : list Z) : Z :=
    match inputString, targetString with
    | [], _ => len targetString
    | _, [] => len inputString
    | firstInputChar :: restInputString, firstTargetChar :: restTargetString =>
        if firstInputChar =? firstTargetChar then
          RecursiveLevenshtein restInputString restTargetString
        else
          1 + Z.min (on_target restTargetString)
                (Z.min (RecursiveLevenshtein restInputString targetString)
                       (RecursiveLevenshtein restInputString restTargetString))
    end.

(** A [[][]int] matrix; reads and writes out of range panic. *)
Definition mget (matrix : list (list Z)) (i j : nat) : option Z :=
  row ← matrix !! i; row !! j.

Definition mset (matrix : list (list Z)) (i j : nat) (v : Z)
    : option (list (list Z)) :=
  row ← matrix !! i;
  if bool_decide (j < length row)%nat then Some (<[i := <[j := v]> row]> matrix)
  else None.

(** [for i := lo; i < lo + count; i++ { body }] on a state of type [St]. *)
Fixpoint for_loop {St : Type} (lo count : nat) (body : nat → St → option St)
    (s : St) : option St :=
  match count with
  | O => Some s
  | S k => s' ← body lo s; for_loop (S lo) k body s'
  end.

(** One cell of the Wagner-Fischer table. *)
Definition fill_cell (inputStringRunes targetStringRunes : list rune)
    (i j : nat) (matrix : list (list Z)) : option (list (list Z)) :=
  ri ← inputStringRunes !! (i - 1)%nat;
  tj ← targetStringRunes !! (j - 1)%nat;
  if ri =? tj then
    v ← mget matrix (i - 1) (j - 1);
    mset matrix i j v
  else
    add ← mget matrix i (j - 1);
    del ← mget matrix (i - 1) j;
    rep ← mget matrix (i - 1) (j - 1);
    mset matrix i j (1 + Z.min add (Z.min del rep)).

Definition DynamicLevenshtein (inputString targetString : gostring) : option Z :=
  let inputStringRunes := runes inputString in
  let targetStringRunes := runes targetString in
  let inputStringLength := length inputStringRunes in
  let targetStringLength := length targetStringRunes in
  let matrix := replicate (inputStringLength + 1)
                  (replicate (targetStringLength + 1) 0) in
  matrix ← for_loop 0 (inputStringLength + 1)
              (λ i m, mset m i 0 (Z.of_nat i)) matrix;
  matrix ← for_loop 0 (targetStringLength + 1)
              (λ j m, mset m 0 j (Z.of_nat j)) matrix;
  matrix ← for_loop 1 inputStringLength
              (λ i m, for_loop 1 targetStringLength
                        (fill_cell inputStringRunes targetStringRunes i) m)
              matrix;
  mget matrix inputStringLength targetStringLength.

Definition LevenshteinDistance : DistanceAlgorithm := DynamicLevenshtein.

Definition LevenshteinSimilarity : SimilarityAlgorithm :=
  λ inputString targetString,
    CalculateSimilarity inputString targetString LevenshteinDistance.

(** ** Indel distance (jaro.go, second part) *)

Fixpoint IndelDistance_rec (inputString : gostring) : gostring → Z :=
  fix on_target (targetString : gostring) : Z :=
    match inputString, targetString with
    | [], _ => len targetString
    | _, [] => len inputString
    | i0 :: restInput, t0 :: restTarget =>
        if i0 =? t0 then IndelDistance_rec restInput restTarget
        else
          let deleteCost := 1 + IndelDistance_rec restInput targetString in
          let insertCost := 1 + on_target restTarget in
          Z.min deleteCost insertCost
    end.

Definition IndelDistance : DistanceAlgorithm :=
  λ inputString targetString, Some (IndelDistance_rec inputString targetString).

Definition IndelSimilarity : SimilarityAlgorithm :=
  λ inputString targetString,
    CalculateSimilarity inputString targetString IndelDistance.

(** ** Damerau-Levenshtein distance, memoised *)

Definition separator : byte := 124.

(** The closure [calculateDamerauLevenshteinDistance] with the [cache] it
    captures passed in and out. The key of a call is [a + "|" + b]. *)
Fixpoint calculateDamerauLevenshteinDistance (a : gostring)
    : gostring → gmap gostring Z → Z * gmap gostring Z :=
  fix on_b (b : gostring) (cache : gmap gostring Z) : Z * gmap gostring Z :=
    let key := a ++ separator :: b in
    match cache !! key with
    | Some val => (val, cache)
    | None =>
        match a, b with
        | [], _ => (len b, <[key := len b]> cache)
        | _, [] => (len a, <[key := len a]> cache)
        | a0 :: a1, b0 :: b1 =>
            if a0 =? b0 then
              let '(v, cache) := calculateDamerauLevenshteinDistance a1 b1 cache in
              (v, <[key := v]> cache)
            else
              let '(insert, cache) := on_b b1 cache in
              let '(delete, cache) := calculateDamerauLevenshteinDistance a1 b cache in
              let '(replace, cache) := calculateDamerauLevenshteinDistance a1 b1 cache in
              let minCost := 1 + Z.min insert (Z.min delete replace) in
              match a1, b1 with
              | a1h :: a2, b1h :: b2 =>
                  if (a0 =? b1h) && (a1h =? b0) then
                    let '(t, cache) := calculateDamerauLevenshteinDistance a2 b2 cache in
                    let transpose := 1 + t in
                    let minCost := Z.min minCost transpose in
                    (minCost, <[key := minCost]> cache)
                  else (minCost, <[key := minCost]> cache)
              | _, _ => (minCost, <[key := minCost]> cache)
              end
        end
    end.

Definition DamerauLevenshtein : DistanceAlgorithm :=
  λ input target, Some (calculateDamerauLevenshteinDistance input target ∅).1.

Definition DamerauLevenshteinSimilarity : SimilarityAlgorithm :=
  λ inputString targetString,
    CalculateSimilarity inputString targetString DamerauLevenshtein.

(** The recurrence the specification gives for the Damerau-Levenshtein
    distance: Levenshtein's recurrence, and one more candidate,
    [1 + distance(a[2:], b[2:])], when the first two characters of [a] and
    [b] are swapped. *)
Fixpoint damerau_reference (a : list Z) : list Z → Z :=
  fix on_b (b : list Z) : Z :=
    match a, b with
    | [], _ => len b
    | _, [] => len a
    | a0 :: a1, b0 :: b1 =>
        if a0 =? b0 then damerau_reference a1 b1
        else
          let levenshtein :=
            1 + Z.min (on_b b1) (Z.min (damerau_reference a1 b) (damerau_reference a1 b1)) in
          match a1, b1 with
          | a1h :: a2, b1h :: b2 =>
              if (a0 =? b1h) && (a1h =? b0)
              then Z.min levenshtein (1 + damerau_reference a2 b2)
              else levenshtein
          | _, _ => levenshtein
          end
    end.

(** ** Jaro similarity (jaro.go, first part) *)

(** [s[i]] and [s[i] = v] at an [int] index. *)
Definition idx {A} (s : list A) (i : Z) : option A :=
  if i <? 0 then None else s !! Z.to_nat i.

Definition upd {A} (s : list A) (i : Z) (v : A) : option (list A) :=
  if (0 <=? i) && (i <? len s) then Some (<[Z.to_nat i := v]> s) else None.

(** The inner loop [for j := start; j < end; j++], with [count] iterations
    left: the first [j] whose character equals [inputString[i]] and is not
    yet matched, where the loop breaks. *)
Fixpoint find_match (count : nat) (j : Z) (inputString targetString : gostring)
    (i : Z) (targetStringMatrix : list Z) : option (option Z) :=
  match count with
  | O => Some None
  | S k =>
      ci ← idx inputString i;
      tj ← idx targetString j;
      if ci =? tj then
        mj ← idx targetStringMatrix j;
        if mj =? 0 then Some (Some j)
        else find_match k (j + 1) inputString targetString i targetStringMatrix
      else find_match k (j + 1) inputString targetString i targetStringMatrix
  end.

(** [int(math.Floor(float64(max(la, lb))/2.0) - 1)]: the float64 operations
    are exact on integers of this size. *)
Definition max_match_distance (inputStringLength targetStringLength : Z) : Z :=
  Z.max inputStringLength targetStringLength / 2 - 1.

(** Body of the matching loop on [(matches, inputStringMatrix, targetStringMatrix)]. *)
Definition match_step (inputString targetString : gostring) (i : nat)
    (st : Z * list Z * list Z) : option (Z * list Z * list Z) :=
  let '(matches, inputStringMatrix, targetStringMatrix) := st in
  let mmd := max_match_distance (len inputString) (len targetString) in
  let start := Z.max 0 (Z.of_nat i - mmd) in
  let end_ := Z.min (len targetString) (Z.of_nat i + mmd + 1) in
  found ← find_match (Z.to_nat (end_ - start)) start inputString targetString
             (Z.of_nat i) targetStringMatrix;
  match found with
  | None => Some st
  | Some j =>
      inputStringMatrix ← upd inputStringMatrix (Z.of_nat i) 1;
      targetStringMatrix ← upd targetStringMatrix j 1;
      Some (matches + 1, inputStringMatrix, targetStringMatrix)
  end.

(** [for targetStringMatrix[marker] == 0 { marker += 1 }], on the part of
    the slice from [marker] on; running off its end is a panic. *)
Fixpoint skip_unmatched (rest : list Z) (marker : nat) : option nat :=
  match rest with
  | [] => None
  | m :: rest' => if m =? 0 then skip_unmatched rest' (S marker) else Some marker
  end.

Definition transposition_step (inputString targetString : gostring)
    (inputStringMatrix targetStringMatrix : list Z) (i : nat)
    (st : Z * nat) : option (Z * nat) :=
  let '(transpositions, marker) := st in
  mi ← inputStringMatrix !! i;
  if 0 <? mi then
    marker ← skip_unmatched (drop marker targetStringMatrix) marker;
    ci ← inputString !! i;
    tm ← targetString !! marker;
    Some (if ci =? tm then transpositions else transpositions + 1, S marker)
  else Some st.

Definition calculateTranspositions (inputString targetString : gostring)
    (inputStringMatrix targetStringMatrix : list Z) : option Z :=
  st ← for_loop 0 (length inputString)
         (transposition_step inputString targetString
            inputStringMatrix targetStringMatrix) (0, 0%nat);
  Some (Z.quot st.1 2).

Definition JaroSimilarity : SimilarityAlgorithm :=
  λ inputString targetString,
  if eqstr inputString targetString then Some one
  else
    let inputStringLength := len inputString in
    let targetStringLength := len targetString in
    st ← for_loop 0 (length inputString) (match_step inputString targetString)
           (0, replicate (length inputString) 0, replicate (length targetString) 0);
    let '(matches, inputStringMatrix, targetStringMatrix) := st in
    if matches <? 1 then Some zero
    else
      transpositions ← calculateTranspositions inputString targetString
                         inputStringMatrix targetStringMatrix;
      Some (div (add (add (div (of_int matches) (of_int inputStringLength))
                          (div (of_int matches) (of_int targetStringLength)))
                     (div (sub (of_int matches) (of_int transpositions))
                          (of_int matches)))
                three).

(** ** lib.go *)

Definition SuggestWordWithSpecificAlgorithm (word : gostring)
    (validWords : list gostring) (algorithm : SimilarityAlgorithm)
    : option Suggestion :=
  SuggestWord word validWords algorithm.

(** The loop of [speyl.SuggestWord], which calls [JaroSimilarity] itself,
    on its variables [highestRatio] and [currentSuggestion]. *)
Fixpoint lib_suggest_loop (word : gostring) (validWords : list gostring)
    (st : float32 * gostring) : option (float32 * gostring) :=
  match validWords with
  | [] => Some st
  | currentWord :: rest =>
      res ← JaroSimilarity word currentWord;
      lib_suggest_loop word rest (if gt res st.1 then (res, currentWord) else st)
  end.

Definition lib_SuggestWord (word : gostring) (validWords : list gostring)
    : option Suggestion :=
  st ← lib_suggest_loop word validWords (zero, []);
  Some {| Likelihood := st.1; Word := st.2 |}.

(** ** Notions used in the statements *)

(** A matrix of [n + 1] rows of [m + 1] cells. *)
Definition shape (n m : nat) (matrix : list (list Z)) : Prop :=
  length matrix = S n ∧ Forall (λ row, length row = S m) matrix.

(** What cell [(i, j)] of the Wagner-Fischer table holds: the distance of the
    first [i] runes of [A] and the first [j] runes of [B], the recurrence
    running from their last characters. *)
Definition table (A B : list rune) (i j : nat) : Z :=
  RecursiveLevenshtein (reverse (take i A)) (reverse (take j B)).

(** The table is filled in rows below [i], in column 0, and in row [i]
    before column [j]. *)
Definition filled (A B : list rune) (i j : nat) (matrix : list (list Z)) : Prop :=
  shape (length A) (length B) matrix ∧
  ∀ i' j', (i' ≤ length A)%nat → (j' ≤ length B)%nat →
    (i' < i ∨ j' = 0 ∨ (i' = i ∧ j' < j))%nat →
    mget matrix i' j' = Some (table A B i' j').

(** The value [DynamicLevenshtein] computes, on the runes of its arguments. *)
Definition rune_distance (a b : gostring) : Z :=
  RecursiveLevenshtein (reverse (runes a)) (reverse (runes b)).

(** Number of continuation bytes that leading byte [p0] announces. *)
Definition width (p0 : byte) : nat :=
  if in_range 0 127 p0 then 0%nat
  else match lead_info p0 with Some (n, _) => n | None => 0%nat end.

(** Extra cost of two pending tails of continuation bytes: those of two
    sequences with the same leading byte that differ later. *)
Definition mismatch (u v : list byte) : Z :=
  if bool_decide (length u = length v ∧ u ≠ v) then 1 else 0.

(** Number of marked (non-zero) cells of a match matrix. *)
Definition marked (l : list Z) : nat := length (filter (λ m, m ≠ 0) l).

(** The float32 expression [JaroSimilarity] returns for [matches > 0]. *)
Definition jaro_value (matches transpositions inputStringLength targetStringLength : Z)
    : float32 :=
  div (add (add (div (of_int matches) (of_int inputStringLength))
                (div (of_int matches) (of_int targetStringLength)))
           (div (sub (of_int matches) (of_int transpositions)) (of_int matches)))
      three.

(** State of the matching loop before iteration [i]. *)
Definition matching (la lb i : nat) (st : Z * list Z * list Z) : Prop :=
  let '(matches, inputStringMatrix, targetStringMatrix) := st in
  length inputStringMatrix = la ∧ length targetStringMatrix = lb ∧
  drop i inputStringMatrix = replicate (la - i) 0 ∧
  Forall (λ m, m = 0 ∨ m = 1) inputStringMatrix ∧
  matches = Z.of_nat (marked inputStringMatrix) ∧
  marked inputStringMatrix = marked targetStringMatrix.

(** State of the loop of [calculateTranspositions] before iteration [i]. *)
Definition pairing (inputStringMatrix targetStringMatrix : list Z) (i : nat)
    (st : Z * nat) : Prop :=
  let '(transpositions, marker) := st in
  marked (drop marker targetStringMatrix) = marked (drop i inputStringMatrix) ∧
  0 ≤ transpositions ≤ Z.of_nat (marked (take i inputStringMatrix)).

(** A suggestion [r] is well selected among [validStrings] scored by
    [algorithm]: its word is empty or a candidate, and a non-empty word
    carries its own, strictly positive, score. *)
Definition well_selected (inputString : gostring) (validStrings : list gostring)
    (algorithm : SimilarityAlgorithm) (r : Suggestion) : Prop :=
  (Word r = [] ∨ Word r ∈ validStrings) ∧
  (Word r ≠ [] →
     gt (Likelihood r) zero = true ∧
     algorithm inputString (Word r) = Some (Likelihood r)).

(** The closure, for short. *)
Abbreviation memo := calculateDamerauLevenshteinDistance.

(** Lengths of concatenations and of explicit lists, as sums. *)
Ltac len_simpl :=
  unfold len in *; repeat (progress cbn [length] in * || rewrite length_app in * ).

(** ** The remaining functions of the sources *)

(** levenshtein.go: the similarity over the recursive distance. *)
Definition RecursiveLevenshteinSimilarity : SimilarityAlgorithm :=
  λ inputString targetString,
    CalculateSimilarity inputString targetString
      (λ a b, Some (RecursiveLevenshtein a b)).

(** lib.go, [LoadPremadeWords]: the content of words.txt, cut at "\r\n". *)
Definition crlf : gostring := [13; 10].

(** Put [c] in front of the first piece. *)
Definition push (c : byte) (pieces : list gostring) : list gostring :=
  match pieces with
  | p :: ps => (c :: p) :: ps
  | [] => [[c]]
  end.

(** [strings.Split(s, "\r\n")]: the pieces of [s] between the occurrences of
    the separator, found from the left. *)
Fixpoint Split_crlf (s : gostring) : list gostring :=
  match s with
  | [] => [[]]
  | c :: rest =>
      match rest with
      | d :: rest' =>
          if (c =? 13) && (d =? 10) then [] :: Split_crlf rest'
          else push c (Split_crlf rest)
      | [] => [[c]]
      end
  end.

(** The file being read is the argument: [None] when [os.ReadFile] fails and
    [log.Fatal] ends the process. *)
Definition LoadPremadeWords (file : option gostring) : option (list gostring) :=
  content ← file;
  Some (Split_crlf content).

(** ** Notions used in the further properties *)

(** No byte of [s] occurs in [t]. *)
Definition disjoint (s t : gostring) : Prop := ∀ c, c ∈ s → c ∉ t.

(** No candidate of [seen] scores above the best likelihood [st.1]. *)
Definition dominated (inputString : gostring) (algorithm : SimilarityAlgorithm)
    (seen : list gostring) (st : float32 * gostring) : Prop :=
  ∀ c, c ∈ seen → ∃ sc, algorithm inputString c = Some sc ∧ gt sc st.1 = false.

(** [strings.Join(pieces, "\r\n")]. *)
Fixpoint Join_crlf (pieces : list gostring) : gostring :=
  match pieces with
  | [] => []
  | [p] => p
  | p :: ps => p ++ crlf ++ Join_crlf ps
  end.

Definition contains_crlf (s : gostring) : Prop := ∃ u v, s = u ++ crlf ++ v.

(** A character of [inputString] at a position below [bound] equals one of
    [targetString] at most [max_match_distance] positions away. *)
Definition window_match (inputString targetString : gostring) (bound : nat) : Prop :=
  ∃ (i j : nat) (c : byte),
    (i < bound)%nat ∧ inputString !! i = Some c ∧ targetString !! j = Some c ∧
    Z.abs (Z.of_nat i - Z.of_nat j)
      ≤ max_match_distance (len inputString) (len targetString).

Definition common_in_window (inputString targetString : gostring) : Prop :=
  window_match inputString targetString (length inputString).

(** The count of the matching loop before iteration [i] is 0 as long as no
    position below [i] has a character in its window. *)
Definition window_inv (inputString targetString : gostring) (i : nat)
    (st : Z * list Z * list Z) : Prop :=
  (st.1.1 = 0 ∧ ¬ window_match inputString targetString i) ∨
  (1 ≤ st.1.1 ∧ window_match inputString targetString i).

(** * Properties *)

(** ** Order of float32 values *)

Lemma SFltb_trans (x y z : spec_float) :
  SFltb x y = true → SFltb y z = true → SFltb x z = true.
Proof.
  unfold SFltb.
  destruct x as [sx|sx| |sx mx ex], y as [sy|sy| |sy my ey], z as [sz|sz| |sz mz ez];
    simpl; try discriminate; try done;
    repeat match goal with b : bool |- _ => destruct b end;
    simpl; try discriminate; try done.
  all: rewrite ?Pos.compare_cont_spec; simpl.
  all: destruct (Z.compare_spec ex ey), (Z.compare_spec ey ez), (Z.compare_spec ex ez);
    simpl; try discriminate; try done; try lia; subst.
  all: destruct (Pos.compare_spec mx my), (Pos.compare_spec my mz),
         (Pos.compare_spec mx mz);
    simpl; try discriminate; try done; try lia.
Qed.

Lemma SFltb_of_eq (x y : spec_float) : SFcompare x y = Some Eq → SFltb y x = false.
Proof.
  unfold SFltb.
  destruct x as [sx|sx| |sx mx ex], y as [sy|sy| |sy my ey];
    simpl; try discriminate; try done;
    repeat match goal with b : bool |- _ => destruct b end;
    simpl; try discriminate; try done.
  all: rewrite ?Pos.compare_cont_spec; simpl.
  all: destruct (Z.compare_spec ex ey), (Z.compare_spec ey ex);
    simpl; try discriminate; try done; try lia.
  all: destruct (Pos.compare_spec mx my), (Pos.compare_spec my mx);
    simpl; try discriminate; try done; try lia.
Qed.

(** ** The best-match selector *)

Section Selector.
Variable inputString : gostring.
Variable algorithm : SimilarityAlgorithm.

Local Abbreviation loop := (suggest_loop inputString algorithm).
Local Abbreviation step := (suggest_step inputString algorithm).

Lemma suggest_loop_app (xs ys : list gostring) (st : float32 * gostring) :
  loop (xs ++ ys) st = loop xs st ≫= loop ys.
Proof.
  revert st. induction xs as [|x xs IH]; intros st; simpl; [done|].
  destruct (step st x) as [st'|]; simpl; [apply IH|done].
Qed.

Lemma suggest_loop_snoc (xs : list gostring) (c : gostring) (st : float32 * gostring) :
  loop (xs ++ [c]) st = loop xs st ≫= λ st', step st' c.
Proof.
  rewrite suggest_loop_app. destruct (loop xs st) as [st'|]; simpl; [|done].
  by destruct (step st' c).
Qed.

(** Candidates whose score is not above the current best leave it alone. *)
Lemma suggest_loop_keep (xs : list gostring) (st : float32 * gostring) :
  Forall (λ c, ∃ sc, algorithm inputString c = Some sc ∧ gt sc st.1 = false) xs →
  loop xs st = Some st.
Proof.
  induction 1 as [|x xs (sc & Hsc & Hgt) _ IH]; simpl; [done|].
  unfold suggest_step. rewrite Hsc. simpl. rewrite Hgt. exact IH.
Qed.

(** Candidates scoring strictly below [s] keep the best below [s]. *)
Lemma suggest_loop_below (s : float32) (xs : list gostring) (st : float32 * gostring) :
  Forall (λ c, ∃ sc, algorithm inputString c = Some sc ∧ lt sc s = true) xs →
  gt s st.1 = true →
  ∃ st', loop xs st = Some st' ∧ gt s st'.1 = true.
Proof.
  intros H. revert st.
  induction H as [|x xs (sc & Hsc & Hlt) _ IH]; intros st Hst; simpl; [eauto|].
  unfold suggest_step. rewrite Hsc. simpl. apply IH.
  destruct (gt sc st.1); simpl; [exact Hlt | exact Hst].
Qed.

Lemma selected_mono (seen more : list gostring) st :
  selected inputString algorithm seen st →
  selected inputString algorithm (seen ++ more) st.
Proof.
  intros [->|(Hin & Hpos & Hval)]; [by left|right].
  split; [|done]. apply elem_of_app. by left.
Qed.

Lemma suggest_step_selected (seen : list gostring) st c st' :
  selected inputString algorithm seen st → step st c = Some st' →
  selected inputString algorithm (seen ++ [c]) st'.
Proof.
  unfold suggest_step. intros Hsel Hstep.
  destruct (algorithm inputString c) as [sc|] eqn:Hsc; simpl in Hstep; [|done].
  injection Hstep as <-.
  destruct (gt sc st.1) eqn:Hgt; [|by apply selected_mono].
  right. simpl. split; [set_solver|]. split; [|done].
  destruct Hsel as [->|(_ & Hpos & _)]; [exact Hgt|].
  unfold gt in *. by eapply SFltb_trans.
Qed.

Lemma suggest_loop_selected (xs seen : list gostring) st :
  selected inputString algorithm seen st →
  Forall (λ c, is_Some (algorithm inputString c)) xs →
  ∃ st', loop xs st = Some st' ∧ selected inputString algorithm (seen ++ xs) st'.
Proof.
  intros Hsel H. revert seen st Hsel.
  induction H as [|x xs [sc Hsc] _ IH]; intros seen st Hsel; simpl.
  { exists st. by rewrite app_nil_r. }
  destruct (step st x) as [st1|] eqn:Hst.
  - simpl. destruct (IH (seen ++ [x]) st1) as (st' & Hloop & Hsel').
    { by eapply suggest_step_selected. }
    exists st'. split; [done|]. by rewrite <- app_assoc in Hsel'.
  - unfold suggest_step in Hst. by rewrite Hsc in Hst.
Qed.
End Selector.

(** C1. [SuggestWord] starts from likelihood 0 and the empty word, takes the
    candidates in order and replaces the best exactly when the score of the
    candidate is strictly greater than the best likelihood so far; hence a
    candidate with a positive score that all earlier ones miss and no later
    one exceeds is the result, and an empty list gives likelihood 0 and the
    empty word. *)
Theorem SuggestWord_scan (inputString : gostring) (algorithm : SimilarityAlgorithm) :
  SuggestWord inputString [] algorithm = Some {| Likelihood := zero; Word := [] |} ∧
  (∀ (validStrings : list gostring) (c : gostring),
     SuggestWord inputString (validStrings ++ [c]) algorithm =
       best ← SuggestWord inputString validStrings algorithm;
       score ← algorithm inputString c;
       Some (if gt score (Likelihood best)
             then {| Likelihood := score; Word := c |} else best)) ∧
  (∀ (before after : list gostring) (w : gostring) (s : float32),
     algorithm inputString w = Some s →
     gt s zero = true →
     Forall (λ c, ∃ sc, algorithm inputString c = Some sc ∧ lt sc s = true) before →
     Forall (λ c, ∃ sc, algorithm inputString c = Some sc ∧ gt sc s = false) after →
     SuggestWord inputString (before ++ w :: after) algorithm =
       Some {| Likelihood := s; Word := w |}).
Proof.
  split; [done|]. split.
  - intros validStrings c. unfold SuggestWord.
    rewrite suggest_loop_snoc.
    destruct (suggest_loop inputString algorithm validStrings (zero, []))
      as [[ratio result]|]; simpl; [|done].
    unfold suggest_step. simpl.
    destruct (algorithm inputString c) as [score|]; simpl; [|done].
    by destruct (gt score ratio).
  - intros before after w s Hw Hpos Hbefore Hafter. unfold SuggestWord.
    rewrite suggest_loop_app.
    destruct (suggest_loop_below inputString algorithm s before (zero, []))
      as (st' & -> & Hst'); [done..|].
    simpl. unfold suggest_step at 1. rewrite Hw. simpl. rewrite Hst'.
    rewrite suggest_loop_keep; [done|]. exact Hafter.
Qed.

(** C2. [SuggestWordWithThreshold] runs [SuggestWord] once and returns its
    word when the likelihood is strictly greater than the threshold, the empty
    string otherwise, in particular when the two are equal. *)
Theorem SuggestWordWithThreshold_strict (inputString : gostring)
    (validStrings : list gostring) (threshold : float32)
    (algorithm : SimilarityAlgorithm) :
  SuggestWordWithThreshold inputString validStrings threshold algorithm =
    (suggested ← SuggestWord inputString validStrings algorithm;
     Some (if gt (Likelihood suggested) threshold then Word suggested else [])) ∧
  ∀ suggested, SuggestWord inputString validStrings algorithm = Some suggested →
    (gt (Likelihood suggested) threshold = true →
       SuggestWordWithThreshold inputString validStrings threshold algorithm
       = Some (Word suggested)) ∧
    (gt (Likelihood suggested) threshold = false →
       SuggestWordWithThreshold inputString validStrings threshold algorithm
       = Some []) ∧
    (SFcompare (Likelihood suggested) threshold = Some Eq →
       SuggestWordWithThreshold inputString validStrings threshold algorithm
       = Some []).
Proof.
  unfold SuggestWordWithThreshold. split.
  - destruct (SuggestWord inputString validStrings algorithm) as [s|]; simpl; [|done].
    by destruct (gt (Likelihood s) threshold).
  - intros s ->. simpl. repeat split.
    + by intros ->.
    + by intros ->.
    + intros Heq. unfold gt. by rewrite (SFltb_of_eq _ _ Heq).
Qed.

(** ** The distance recurrences *)

Lemma RecursiveLevenshtein_nil_l (t : list Z) : RecursiveLevenshtein [] t = len t.
Proof. by destruct t. Qed.

Lemma RecursiveLevenshtein_nil_r (s : list Z) : RecursiveLevenshtein s [] = len s.
Proof. by destruct s. Qed.

Lemma RecursiveLevenshtein_cons (x y : Z) (s t : list Z) :
  RecursiveLevenshtein (x :: s) (y :: t) =
    if x =? y then RecursiveLevenshtein s t
    else 1 + Z.min (RecursiveLevenshtein (x :: s) t)
               (Z.min (RecursiveLevenshtein s (y :: t)) (RecursiveLevenshtein s t)).
Proof. reflexivity. Qed.

(** Induction along the three recursive calls of the distance functions. *)
Lemma distance_ind (P : list Z → list Z → Prop) :
  (∀ t, P [] t) → (∀ s, P s []) →
  (∀ x y s t, P s t → P (x :: s) t → P s (y :: t) → P (x :: s) (y :: t)) →
  ∀ s t, P s t.
Proof.
  intros Hnil_l Hnil_r Hcons s.
  induction s as [|x s IHs]; [done|].
  induction t as [|y t IHt]; [done|]. by apply Hcons.
Qed.

Lemma len_nonneg {A} (s : list A) : 0 ≤ len s.
Proof. unfold len. lia. Qed.

Lemma RecursiveLevenshtein_sym (s t : list Z) :
  RecursiveLevenshtein s t = RecursiveLevenshtein t s.
Proof.
  revert s t. apply distance_ind.
  - intros t. by rewrite RecursiveLevenshtein_nil_l, RecursiveLevenshtein_nil_r.
  - intros s. by rewrite RecursiveLevenshtein_nil_l, RecursiveLevenshtein_nil_r.
  - intros x y s t IH1 IH2 IH3. rewrite !RecursiveLevenshtein_cons.
    rewrite (Z.eqb_sym y x), IH1, IH2, IH3. destruct (x =? y); lia.
Qed.

Lemma RecursiveLevenshtein_bounds (s t : list Z) :
  0 ≤ RecursiveLevenshtein s t ≤ Z.max (len s) (len t).
Proof.
  revert s t. apply distance_ind.
  - intros t. rewrite RecursiveLevenshtein_nil_l. pose proof (len_nonneg t).
    len_simpl. lia.
  - intros s. rewrite RecursiveLevenshtein_nil_r. pose proof (len_nonneg s).
    len_simpl. lia.
  - intros x y s t IH1 IH2 IH3. rewrite RecursiveLevenshtein_cons.
    len_simpl. destruct (x =? y); lia.
Qed.

(** One more character at the end of either string costs at most one more
    edit; one more at the end of both costs nothing when they agree. *)
Lemma RecursiveLevenshtein_snoc_l (r : Z) (s t : list Z) :
  RecursiveLevenshtein (s ++ [r]) t ≤ 1 + RecursiveLevenshtein s t.
Proof.
  revert s t. apply distance_ind.
  - intros t. simpl app. rewrite RecursiveLevenshtein_nil_l.
    pose proof (RecursiveLevenshtein_bounds [r] t) as H.
    pose proof (len_nonneg t). len_simpl. lia.
  - intros s. rewrite !RecursiveLevenshtein_nil_r. len_simpl. lia.
  - intros x y s t IH1 IH2 IH3. simpl app in *. rewrite !RecursiveLevenshtein_cons.
    destruct (x =? y); lia.
Qed.

Lemma RecursiveLevenshtein_snoc_r (r : Z) (s t : list Z) :
  RecursiveLevenshtein s (t ++ [r]) ≤ 1 + RecursiveLevenshtein s t.
Proof.
  rewrite (RecursiveLevenshtein_sym s), (RecursiveLevenshtein_sym s t).
  apply RecursiveLevenshtein_snoc_l.
Qed.

Lemma RecursiveLevenshtein_snoc_single (r q : Z) (t : list Z) :
  RecursiveLevenshtein [r] (t ++ [q]) ≤ len t + (if r =? q then 0 else 1).
Proof.
  induction t as [|y t IH].
  - simpl app. rewrite RecursiveLevenshtein_cons.
    rewrite !RecursiveLevenshtein_nil_l, !RecursiveLevenshtein_nil_r. len_simpl.
    destruct (r =? q); lia.
  - simpl app. rewrite RecursiveLevenshtein_cons.
    rewrite (RecursiveLevenshtein_nil_l (t ++ [q])). pose proof (len_nonneg t).
    len_simpl. destruct (r =? y), (r =? q); lia.
Qed.

Lemma RecursiveLevenshtein_snoc_both (r q : Z) (s t : list Z) :
  RecursiveLevenshtein (s ++ [r]) (t ++ [q])
  ≤ RecursiveLevenshtein s t + (if r =? q then 0 else 1).
Proof.
  revert s t. apply distance_ind.
  - intros t. rewrite RecursiveLevenshtein_nil_l. apply RecursiveLevenshtein_snoc_single.
  - intros s. rewrite RecursiveLevenshtein_nil_r.
    rewrite RecursiveLevenshtein_sym, (Z.eqb_sym r q).
    apply RecursiveLevenshtein_snoc_single.
  - intros x y s t IH1 IH2 IH3. simpl app in *. rewrite !RecursiveLevenshtein_cons.
    destruct (x =? y), (r =? q); lia.
Qed.

Lemma IndelDistance_rec_nil_l (t : gostring) : IndelDistance_rec [] t = len t.
Proof. by destruct t. Qed.

Lemma IndelDistance_rec_nil_r (s : gostring) : IndelDistance_rec s [] = len s.
Proof. by destruct s. Qed.

Lemma IndelDistance_rec_cons (x y : Z) (s t : gostring) :
  IndelDistance_rec (x :: s) (y :: t) =
    if x =? y then IndelDistance_rec s t
    else Z.min (1 + IndelDistance_rec s (y :: t)) (1 + IndelDistance_rec (x :: s) t).
Proof. reflexivity. Qed.

Lemma IndelDistance_rec_sym (s t : gostring) :
  IndelDistance_rec s t = IndelDistance_rec t s.
Proof.
  revert s t. apply distance_ind.
  - intros t. by rewrite IndelDistance_rec_nil_l, IndelDistance_rec_nil_r.
  - intros s. by rewrite IndelDistance_rec_nil_l, IndelDistance_rec_nil_r.
  - intros x y s t IH1 IH2 IH3. rewrite !IndelDistance_rec_cons.
    rewrite (Z.eqb_sym y x), IH1, IH2, IH3. destruct (x =? y); lia.
Qed.

Lemma IndelDistance_rec_bounds (s t : gostring) :
  0 ≤ IndelDistance_rec s t ≤ len s + len t.
Proof.
  revert s t. apply distance_ind.
  - intros t. rewrite IndelDistance_rec_nil_l. pose proof (len_nonneg t).
    len_simpl. lia.
  - intros s. rewrite IndelDistance_rec_nil_r. pose proof (len_nonneg s).
    len_simpl. lia.
  - intros x y s t IH1 IH2 IH3. rewrite IndelDistance_rec_cons.
    len_simpl. destruct (x =? y); lia.
Qed.

(** ** Loops and matrices *)

Lemma for_loop_invariant {St : Type} (P : nat → St → Prop)
    (body : nat → St → option St) (count lo : nat) (s : St) :
  P lo s →
  (∀ i s, (lo ≤ i < lo + count)%nat → P i s → ∃ s', body i s = Some s' ∧ P (S i) s') →
  ∃ s', for_loop lo count body s = Some s' ∧ P (lo + count)%nat s'.
Proof.
  revert lo s. induction count as [|k IH]; intros lo s Hs Hbody; simpl.
  - exists s. by rewrite Nat.add_0_r.
  - destruct (Hbody lo s) as (s1 & -> & Hs1); [lia|done|]. simpl.
    destruct (IH (S lo) s1) as (s' & -> & Hs'); [done| |].
    + intros i s2 Hi. apply Hbody. lia.
    + exists s'. split; [done|]. by replace (lo + S k)%nat with (S lo + k)%nat by lia.
Qed.

Lemma mset_spec (n m : nat) (matrix : list (list Z)) (i j : nat) (v : Z) :
  shape n m matrix → (i ≤ n)%nat → (j ≤ m)%nat →
  ∃ matrix', mset matrix i j v = Some matrix' ∧ shape n m matrix' ∧
    ∀ i' j', mget matrix' i' j' =
             if decide (i' = i ∧ j' = j) then Some v else mget matrix i' j'.
Proof.
  intros [Hlen Hrows] Hi Hj. unfold mset.
  destruct (lookup_lt_is_Some_2 matrix i) as [row Hrow]; [lia|].
  rewrite Hrow. simpl.
  assert (Hlrow : length row = S m).
  { eapply Forall_lookup_1 in Hrows; [|exact Hrow]. done. }
  rewrite bool_decide_eq_true_2 by lia.
  eexists. split; [done|]. split.
  - split; [by rewrite length_insert|].
    apply Forall_insert; [done|]. by rewrite length_insert.
  - intros i' j'. unfold mget. destruct (decide (i' = i)) as [->|Hne].
    + rewrite list_lookup_insert_eq by lia. simpl.
      destruct (decide (j' = j)) as [->|Hnej].
      * rewrite list_lookup_insert_eq by lia. by rewrite decide_True.
      * rewrite list_lookup_insert_ne by done. rewrite decide_False by tauto.
        by rewrite Hrow.
    + rewrite list_lookup_insert_ne by done. by rewrite decide_False by tauto.
Qed.

Section Table.
Variables A B : list rune.

Lemma table_0_l (j : nat) : (j ≤ length B)%nat → table A B 0 j = Z.of_nat j.
Proof.
  intros Hj. unfold table. rewrite take_0. simpl.
  rewrite RecursiveLevenshtein_nil_l. unfold len.
  rewrite length_reverse, length_take. lia.
Qed.

Lemma table_0_r (i : nat) : (i ≤ length A)%nat → table A B i 0 = Z.of_nat i.
Proof.
  intros Hi. unfold table. rewrite (take_0 B). simpl.
  rewrite RecursiveLevenshtein_nil_r. unfold len.
  rewrite length_reverse, length_take. lia.
Qed.

Lemma table_step (i j : nat) (x y : rune) :
  A !! i = Some x → B !! j = Some y →
  table A B (S i) (S j) =
    if x =? y then table A B i j
    else 1 + Z.min (table A B (S i) j) (Z.min (table A B i (S j)) (table A B i j)).
Proof.
  intros Hx Hy. unfold table.
  rewrite (take_S_r A i x Hx), (take_S_r B j y Hy), !reverse_snoc.
  apply RecursiveLevenshtein_cons.
Qed.

Lemma fill_cell_spec (i j : nat) (matrix : list (list Z)) :
  (1 ≤ i ≤ length A)%nat → (1 ≤ j ≤ length B)%nat →
  filled A B i j matrix →
  ∃ matrix', fill_cell A B i j matrix = Some matrix' ∧ filled A B i (S j) matrix'.
Proof.
  intros Hi Hj [Hshape Hcells]. unfold fill_cell.
  destruct (lookup_lt_is_Some_2 A (i - 1)) as [x Hx]; [lia|].
  destruct (lookup_lt_is_Some_2 B (j - 1)) as [y Hy]; [lia|].
  rewrite Hx, Hy. simpl.
  rewrite !Hcells by lia. simpl.
  pose proof (table_step (i - 1) (j - 1) x y Hx Hy) as Hstep.
  replace (S (i - 1)) with i in Hstep by lia.
  replace (S (j - 1)) with j in Hstep by lia.
  destruct (x =? y).
  - simpl. destruct (mset_spec _ _ matrix i j (table A B (i - 1) (j - 1)) Hshape)
      as (matrix' & -> & Hshape' & Hget); [lia..|].
    exists matrix'. split; [done|]. split; [done|].
    intros i' j' Hi' Hj' Hdone. rewrite Hget. case_decide as Hij.
    + destruct Hij as [-> ->]. by rewrite Hstep.
    + apply Hcells; [done..|]. lia.
  - simpl. destruct (mset_spec _ _ matrix i j
      (1 + Z.min (table A B i (j - 1))
             (Z.min (table A B (i - 1) j) (table A B (i - 1) (j - 1)))) Hshape)
      as (matrix' & -> & Hshape' & Hget); [lia..|].
    exists matrix'. split; [done|]. split; [done|].
    intros i' j' Hi' Hj' Hdone. rewrite Hget. case_decide as Hij.
    + destruct Hij as [-> ->]. by rewrite Hstep.
    + apply Hcells; [done..|]. lia.
Qed.

Lemma fill_row_spec (i : nat) (matrix : list (list Z)) :
  (1 ≤ i ≤ length A)%nat →
  filled A B i 1 matrix →
  ∃ matrix', for_loop 1 (length B) (fill_cell A B i) matrix = Some matrix' ∧
             filled A B (S i) 1 matrix'.
Proof.
  intros Hi Hfilled.
  destruct (for_loop_invariant (λ j m, filled A B i j m) (fill_cell A B i)
              (length B) 1 matrix) as (matrix' & -> & [Hshape Hcells]); [done| |].
  - intros j m Hj Hm. apply fill_cell_spec; [done|lia|done].
  - exists matrix'. split; [done|]. split; [done|].
    intros i' j' Hi' Hj' Hdone. apply Hcells; [done..|]. lia.
Qed.
End Table.

Theorem DynamicLevenshtein_table (inputString targetString : gostring) :
  DynamicLevenshtein inputString targetString =
    Some (RecursiveLevenshtein (reverse (runes inputString))
                               (reverse (runes targetString))).
Proof.
  unfold DynamicLevenshtein.
  set (A := runes inputString). set (B := runes targetString).
  set (n := length A). set (m := length B).
  (* base column *)
  destruct (for_loop_invariant
      (λ k mx, shape n m mx ∧ ∀ i, (i < k)%nat → mget mx i 0 = Some (Z.of_nat i))
      (λ i mx, mset mx i 0 (Z.of_nat i)) (n + 1) 0
      (replicate (n + 1) (replicate (m + 1) 0)))
    as (m1 & -> & Hshape1 & Hcol).
  { split; [|lia]. split; [rewrite length_replicate; lia|].
    apply Forall_replicate. rewrite length_replicate. lia. }
  { intros i mx Hi [Hshape Hc].
    destruct (mset_spec n m mx i 0 (Z.of_nat i) Hshape) as (mx' & -> & Hs' & Hget);
      [lia..|].
    exists mx'. split; [done|]. split; [done|].
    intros i' Hi'. rewrite Hget. case_decide as Hd; [by destruct Hd as [-> _]|].
    apply Hc. lia. }
  simpl.
  (* base row *)
  destruct (for_loop_invariant
      (λ k mx, shape n m mx ∧ (∀ i, (i ≤ n)%nat → mget mx i 0 = Some (Z.of_nat i)) ∧
               ∀ j, (j < k)%nat → mget mx 0 j = Some (Z.of_nat j))
      (λ j mx, mset mx 0 j (Z.of_nat j)) (m + 1) 0 m1)
    as (m2 & -> & Hshape2 & Hcol2 & Hrow2).
  { split; [done|]. split; [|lia]. intros i Hi. apply Hcol. lia. }
  { intros j mx Hj (Hshape & Hc & Hr).
    destruct (mset_spec n m mx 0 j (Z.of_nat j) Hshape) as (mx' & -> & Hs' & Hget);
      [lia..|].
    exists mx'. split; [done|]. split; [done|]. split.
    - intros i Hi. rewrite Hget. case_decide as Hd; [by destruct Hd as [-> ->]|].
      by apply Hc.
    - intros j' Hj'. rewrite Hget. case_decide as Hd; [by destruct Hd as [_ ->]|].
      apply Hr. lia. }
  simpl.
  (* the table *)
  destruct (for_loop_invariant (λ i mx, filled A B i 1 mx)
      (λ i mx, for_loop 1 m (fill_cell A B i) mx) n 1 m2)
    as (m3 & -> & Hshape3 & Hcells).
  { split; [done|]. intros i' j' Hi' Hj' Hdone.
    assert (i' = 0 ∨ j' = 0)%nat as [->| ->] by lia.
    - rewrite table_0_l by done. apply Hrow2. lia.
    - rewrite table_0_r by done. by apply Hcol2. }
  { intros i mx Hi Hmx. apply fill_row_spec; [lia|done]. }
  simpl. rewrite Hcells by lia. unfold table.
  subst n m. by rewrite !firstn_all.
Qed.

(** ** UTF-8 sequences *)

Lemma in_range_true (lo hi b : Z) : in_range lo hi b = true ↔ lo ≤ b ≤ hi.
Proof. unfold in_range. rewrite andb_true_iff, !Z.leb_le. tauto. Qed.

Lemma in_range_false (lo hi b : Z) : in_range lo hi b = false ↔ ¬ (lo ≤ b ≤ hi).
Proof. rewrite <- in_range_true. by destruct (in_range lo hi b). Qed.

Lemma lead_info_spec (p0 : byte) (n : nat) (lo hi : Z) :
  lead_info p0 = Some (n, (lo, hi)) →
  194 ≤ p0 ≤ 244 ∧ 128 ≤ lo ∧ hi ≤ 191.
Proof.
  unfold lead_info.
  repeat (case_match; [intros [= <- <- <-];
    repeat match goal with
           | H : in_range _ _ _ = true |- _ => apply in_range_true in H
           | H : (_ =? _) = true |- _ => apply Z.eqb_eq in H
           end; lia|]).
  done.
Qed.

Lemma sequence_of_spec (p0 : byte) (s1 : gostring) (cs : list byte) :
  sequence_of p0 s1 = Some cs →
  is_cont p0 = false ∧ Forall (λ c, is_cont c = true) cs ∧
  length cs = width p0 ∧ ∃ s', s1 = cs ++ s'.
Proof.
  unfold sequence_of, width.
  destruct (in_range 0 127 p0) eqn:Hascii.
  - intros [= <-]. apply in_range_true in Hascii.
    split; [apply in_range_false; lia|]. split; [constructor|]. split; [done|].
    by exists s1.
  - destruct (lead_info p0) as [[n [lo hi]]|] eqn:Hlead; [|done].
    apply lead_info_spec in Hlead as (Hp0 & Hlo & Hhi).
    destruct (take n s1) as [|b1 rest] eqn:Htake; [done|].
    case_match eqn:Hcond; [|done]. intros [= <-].
    apply andb_true_iff in Hcond as [Hcond Hrest].
    apply andb_true_iff in Hcond as [Hlen Hb1].
    apply bool_decide_eq_true in Hlen. apply in_range_true in Hb1.
    split; [apply in_range_false; lia|]. split.
    { constructor; [apply in_range_true; lia|].
      apply Forall_forall. intros c Hc.
      rewrite forallb_forall in Hrest. apply Hrest. by apply list_elem_of_In. }
    split; [done|].
    exists (drop n s1). by rewrite <- Htake, take_drop.
Qed.

Lemma runes_from_skip (cs s : gostring) :
  runes_from (length cs) (cs ++ s) = runes_from 0 s.
Proof. induction cs as [|c cs IH]; [done|]. simpl. exact IH. Qed.

Lemma valid_from_skip (cs s : gostring) :
  valid_from (length cs) (cs ++ s) = valid_from 0 s.
Proof. induction cs as [|c cs IH]; [done|]. simpl. exact IH. Qed.

Lemma runes_from_length (s : gostring) (skip : nat) :
  (length (runes_from skip s) ≤ length s)%nat.
Proof.
  revert skip. induction s as [|p0 s IH]; intros skip; simpl; [lia|].
  destruct skip as [|k].
  - destruct (sequence_of p0 s) as [cs|]; simpl.
    + specialize (IH (length cs - 0)%nat). lia.
    + specialize (IH 0%nat). lia.
  - specialize (IH k). lia.
Qed.

Lemma runes_length (s : gostring) : len (runes s) ≤ len s.
Proof. unfold len, runes. pose proof (runes_from_length s 0). lia. Qed.

(** A well-formed string is empty or starts with one well-formed sequence. *)
Lemma ValidString_inv (s : gostring) :
  ValidString s = true →
  s = [] ∨
  ∃ p0 cs s', s = p0 :: cs ++ s' ∧ sequence_of p0 (cs ++ s') = Some cs ∧
              ValidString s' = true ∧ runes s = assemble p0 cs :: runes s'.
Proof.
  destruct s as [|p0 s1]; [by left|]. intros Hvalid. right.
  unfold ValidString in Hvalid. simpl in Hvalid.
  destruct (sequence_of p0 s1) as [cs|] eqn:Hseq; [|done].
  destruct (sequence_of_spec _ _ _ Hseq) as (_ & _ & _ & s' & ->).
  exists p0, cs, s'. split; [done|]. split; [done|].
  rewrite valid_from_skip in Hvalid. split; [done|].
  unfold runes. simpl. rewrite Hseq. simpl.
  by rewrite Nat.sub_0_r, runes_from_skip.
Qed.

(** ** Indel against Levenshtein *)

Lemma mismatch_bounds (u v : list byte) : 0 ≤ mismatch u v ≤ 1.
Proof. unfold mismatch. case_bool_decide; lia. Qed.

Lemma mismatch_cons (c : byte) (u v : list byte) :
  mismatch (c :: u) (c :: v) = mismatch u v.
Proof.
  unfold mismatch.
  rewrite (bool_decide_ext (length (c :: u) = length (c :: v) ∧ c :: u ≠ c :: v)
             (length u = length v ∧ u ≠ v)); [done|].
  simpl. split.
  - intros [Hl Hne]. split; [lia|congruence].
  - intros [Hl Hne]. split; [lia|congruence].
Qed.

Lemma mismatch_nil_l (v : list byte) : mismatch [] v = 0.
Proof.
  unfold mismatch. rewrite bool_decide_eq_false_2; [done|].
  intros [Hl Hne]. destruct v; [done|]. simpl in Hl. lia.
Qed.

Lemma mismatch_nil_r (u : list byte) : mismatch u [] = 0.
Proof.
  unfold mismatch. rewrite bool_decide_eq_false_2; [done|].
  intros [Hl Hne]. destruct u; [done|]. simpl in Hl. lia.
Qed.

Lemma rune_distance_nil_l (b : gostring) : rune_distance [] b ≤ len b.
Proof.
  unfold rune_distance. simpl. rewrite RecursiveLevenshtein_nil_l.
  pose proof (runes_length b). unfold len in *. rewrite length_reverse. lia.
Qed.

Lemma rune_distance_nil_r (a : gostring) : rune_distance a [] ≤ len a.
Proof.
  unfold rune_distance. simpl. rewrite RecursiveLevenshtein_nil_r.
  pose proof (runes_length a). unfold len in *. rewrite length_reverse. lia.
Qed.

Lemma cont_not_lead (c p0 : byte) :
  is_cont c = true → is_cont p0 = false → (c =? p0) = false.
Proof. intros Hc Hp. apply Z.eqb_neq. intros ->. congruence. Qed.

Lemma indel_dominates (n : nat) :
  ∀ (u v : list byte) (a b : gostring),
    (length (u ++ a) + length (v ++ b) ≤ n)%nat →
    Forall (λ c, is_cont c = true) u → Forall (λ c, is_cont c = true) v →
    ValidString a = true → ValidString b = true →
    rune_distance a b + mismatch u v ≤ IndelDistance_rec (u ++ a) (v ++ b).
Proof.
  induction n as [|n IH]; intros u v a b Hn Hu Hv Ha Hb.
  { destruct u, v, a, b; simpl in Hn; try lia. by vm_compute. }
  destruct u as [|c u], v as [|d v].
  - (* both at a sequence boundary *)
    rewrite mismatch_nil_l, Z.add_0_r. simpl app.
    destruct (ValidString_inv a Ha) as [->|(p & cs & a' & -> & Hp & Ha' & Hra)].
    { rewrite IndelDistance_rec_nil_l. apply rune_distance_nil_l. }
    destruct (ValidString_inv b Hb) as [->|(q & ds & b' & -> & Hq & Hb' & Hrb)].
    { rewrite IndelDistance_rec_nil_r. apply rune_distance_nil_r. }
    destruct (sequence_of_spec _ _ _ Hp) as (Hpl & Hcs & Hwp & _).
    destruct (sequence_of_spec _ _ _ Hq) as (Hql & Hds & Hwq & _).
    rewrite IndelDistance_rec_cons.
    simpl in Hn. rewrite !length_app in Hn.
    unfold rune_distance at 1. rewrite Hra, Hrb, !reverse_cons.
    destruct (p =? q) eqn:Hpq.
    + apply Z.eqb_eq in Hpq as <-.
      etrans; [apply RecursiveLevenshtein_snoc_both|].
      etrans; [|apply (IH cs ds a' b'); [rewrite !length_app; lia|done..]].
      unfold rune_distance, mismatch. apply Z.add_le_mono_l.
      case_bool_decide as Hm.
      * destruct (_ =? _); lia.
      * destruct (decide (cs = ds)) as [->|Hne]; [by rewrite Z.eqb_refl|].
        exfalso. apply Hm. split; [congruence|done].
    + apply Z.min_glb.
      * pose proof (IH cs [] a' (q :: ds ++ b')) as H1. simpl app in H1.
        rewrite mismatch_nil_r in H1.
        unfold rune_distance in H1. rewrite Hrb, reverse_cons in H1.
        pose proof (RecursiveLevenshtein_snoc_l (assemble p cs)
                      (reverse (runes a')) (reverse (runes b') ++ [assemble q ds])).
        specialize (H1 ltac:(rewrite !length_app; simpl; rewrite length_app; lia)
                       Hcs ltac:(constructor) Ha' Hb). lia.
      * pose proof (IH [] ds (p :: cs ++ a') b') as H1. simpl app in H1.
        rewrite mismatch_nil_l in H1.
        unfold rune_distance in H1. rewrite Hra, reverse_cons in H1.
        pose proof (RecursiveLevenshtein_snoc_r (assemble q ds)
                      (reverse (runes a') ++ [assemble p cs]) (reverse (runes b'))).
        specialize (H1 ltac:(rewrite !length_app; simpl; rewrite length_app; lia)
                       ltac:(constructor) Hds Ha Hb'). lia.
  - (* a pending tail on the target only *)
    rewrite mismatch_nil_l, Z.add_0_r. simpl app.
    apply Forall_cons in Hv as [Hd Hv].
    destruct (ValidString_inv a Ha) as [->|(p & cs & a' & -> & Hp & Ha' & Hra)].
    { rewrite IndelDistance_rec_nil_l. etrans; [apply rune_distance_nil_l|].
      len_simpl. lia. }
    destruct (sequence_of_spec _ _ _ Hp) as (Hpl & Hcs & Hwp & _).
    rewrite IndelDistance_rec_cons, (Z.eqb_sym p d), (cont_not_lead d p) by done.
    simpl in Hn. rewrite !length_app in Hn.
    apply Z.min_glb.
    + pose proof (IH cs (d :: v) a' b) as H1. simpl app in H1.
      pose proof (mismatch_bounds cs (d :: v)).
      unfold rune_distance at 1. rewrite Hra, reverse_cons.
      pose proof (RecursiveLevenshtein_snoc_l (assemble p cs)
                    (reverse (runes a')) (reverse (runes b))).
      unfold rune_distance in H1.
      specialize (H1 ltac:(rewrite !length_app; simpl; rewrite length_app; lia)
                     Hcs ltac:(by constructor) Ha' Hb). lia.
    + pose proof (IH [] v (p :: cs ++ a') b) as H1. simpl app in H1.
      rewrite mismatch_nil_l in H1.
      specialize (H1 ltac:(simpl; rewrite !length_app; lia)
                     ltac:(constructor) Hv Ha Hb). lia.
  - (* a pending tail on the input only *)
    rewrite mismatch_nil_r, Z.add_0_r. simpl app.
    apply Forall_cons in Hu as [Hc Hu].
    destruct (ValidString_inv b Hb) as [->|(q & ds & b' & -> & Hq & Hb' & Hrb)].
    { rewrite IndelDistance_rec_nil_r. etrans; [apply rune_distance_nil_r|].
      len_simpl. lia. }
    destruct (sequence_of_spec _ _ _ Hq) as (Hql & Hds & Hwq & _).
    rewrite IndelDistance_rec_cons, (cont_not_lead c q) by done.
    simpl in Hn. rewrite !length_app in Hn.
    apply Z.min_glb.
    + pose proof (IH u [] a (q :: ds ++ b')) as H1. simpl app in H1.
      rewrite mismatch_nil_r in H1.
      specialize (H1 ltac:(simpl; rewrite !length_app; lia)
                     Hu ltac:(constructor) Ha Hb). lia.
    + pose proof (IH (c :: u) ds a b') as H1. simpl app in H1.
      pose proof (mismatch_bounds (c :: u) ds).
      unfold rune_distance at 1. rewrite Hrb, reverse_cons.
      pose proof (RecursiveLevenshtein_snoc_r (assemble q ds)
                    (reverse (runes a)) (reverse (runes b'))).
      unfold rune_distance in H1.
      specialize (H1 ltac:(rewrite !length_app; simpl; rewrite length_app; lia)
                     ltac:(by constructor) Hds Ha Hb'). lia.
  - (* pending tails on both sides *)
    apply Forall_cons in Hu as [Hc Hu]. apply Forall_cons in Hv as [Hd Hv].
    simpl app. rewrite IndelDistance_rec_cons.
    simpl in Hn. rewrite !length_app in Hn.
    destruct (c =? d) eqn:Hcd.
    + apply Z.eqb_eq in Hcd as <-. rewrite mismatch_cons.
      apply IH; [rewrite !length_app; lia|done..].
    + pose proof (mismatch_bounds (c :: u) (d :: v)).
      apply Z.min_glb.
      * pose proof (IH u (d :: v) a b) as H1. simpl app in H1.
        pose proof (mismatch_bounds u (d :: v)).
        specialize (H1 ltac:(simpl; rewrite !length_app; lia)
                       Hu ltac:(by constructor) Ha Hb). lia.
      * pose proof (IH (c :: u) v a b) as H1. simpl app in H1.
        pose proof (mismatch_bounds (c :: u) v).
        specialize (H1 ltac:(simpl; rewrite !length_app; lia)
                       ltac:(by constructor) Hv Ha Hb). lia.
Qed.

(** On well-formed strings the rune-level Levenshtein distance is at most
    the byte-level Indel distance. *)
Lemma rune_distance_le_indel (a b : gostring) :
  ValidString a = true → ValidString b = true →
  rune_distance a b ≤ IndelDistance_rec a b.
Proof.
  intros Ha Hb.
  pose proof (indel_dominates (length a + length b) [] [] a b) as H.
  rewrite mismatch_nil_l in H. simpl in H. specialize (H ltac:(lia)). 
  specialize (H ltac:(constructor) ltac:(constructor) Ha Hb). lia.
Qed.

(** ** The memoised Damerau-Levenshtein closure *)

(** The closure, unfolded once. *)
Lemma calculateDamerauLevenshteinDistance_eq (a b : gostring) (cache : gmap gostring Z) :
  memo a b cache =
    let key := a ++ separator :: b in
    match cache !! key with
    | Some val => (val, cache)
    | None =>
        match a, b with
        | [], _ => (len b, <[key := len b]> cache)
        | _, [] => (len a, <[key := len a]> cache)
        | a0 :: a1, b0 :: b1 =>
            if a0 =? b0 then
              let '(v, cache) := memo a1 b1 cache in
              (v, <[key := v]> cache)
            else
              let '(insert, cache) := memo a b1 cache in
              let '(delete, cache) := memo a1 b cache in
              let '(replace, cache) := memo a1 b1 cache in
              let minCost := 1 + Z.min insert (Z.min delete replace) in
              match a1, b1 with
              | a1h :: a2, b1h :: b2 =>
                  if (a0 =? b1h) && (a1h =? b0) then
                    let '(t, cache) := memo a2 b2 cache in
                    let minCost := Z.min minCost (1 + t) in
                    (minCost, <[key := minCost]> cache)
                  else (minCost, <[key := minCost]> cache)
              | _, _ => (minCost, <[key := minCost]> cache)
              end
        end
    end.
Proof. destruct a, b; reflexivity. Qed.

Section Memo.
Variable D : gostring → gostring → Prop.
Variable I : gmap gostring Z → Prop.
Variable R : gostring → gostring → Z → Prop.

Hypothesis D_tail_l : ∀ x a b, D (x :: a) b → D a b.
Hypothesis D_tail_r : ∀ y a b, D a (y :: b) → D a b.
Hypothesis hit : ∀ a b cache v,
  D a b → I cache → cache !! (a ++ separator :: b) = Some v → R a b v.
Hypothesis store : ∀ a b cache v,
  D a b → I cache → R a b v → I (<[a ++ separator :: b := v]> cache).
Hypothesis R_nil_l : ∀ b, R [] b (len b).
Hypothesis R_nil_r : ∀ a, R a [] (len a).
Hypothesis R_match : ∀ x a b v, R a b v → R (x :: a) (x :: b) v.
Hypothesis R_edit : ∀ x y a b i d r,
  x ≠ y → R (x :: a) b i → R a (y :: b) d → R a b r →
  (∀ x' a' y' b', a = x' :: a' → b = y' :: b' → ¬ (x = y' ∧ x' = y)) →
  R (x :: a) (y :: b) (1 + Z.min i (Z.min d r)).
Hypothesis R_transpose : ∀ x y a b i d r t,
  x ≠ y → R (x :: y :: a) (x :: b) i → R (y :: a) (y :: x :: b) d →
  R (y :: a) (x :: b) r → R a b t →
  R (x :: y :: a) (y :: x :: b) (Z.min (1 + Z.min i (Z.min d r)) (1 + t)).

Lemma memo_invariant (n : nat) :
  ∀ a b cache, (length a + length b ≤ n)%nat → D a b → I cache →
    R a b (memo a b cache).1 ∧ I (memo a b cache).2.
Proof.
  induction n as [|n IH]; intros a b cache Hn HD HI;
    rewrite calculateDamerauLevenshteinDistance_eq; cbv zeta;
    destruct (cache !! (a ++ separator :: b)) as [val|] eqn:Hlook;
    try (simpl; split; [by eapply hit|done]).
  { destruct a, b; simpl in Hn; try lia. simpl. split; [apply R_nil_l|].
    apply (store [] []); [done..|]. apply R_nil_l. }
  destruct a as [|a0 a1].
  { simpl. split; [apply R_nil_l|]. apply (store [] b); [done..|]. apply R_nil_l. }
  destruct b as [|b0 b1].
  { simpl. split; [apply R_nil_r|]. apply (store (a0 :: a1) []); [done..|].
    apply R_nil_r. }
  simpl in Hn.
  assert (D a1 b1) as HD11 by eauto.
  assert (D a1 (b0 :: b1)) as HD10 by eauto.
  assert (D (a0 :: a1) b1) as HD01 by eauto.
  destruct (a0 =? b0) eqn:Hab.
  { apply Z.eqb_eq in Hab as <-.
    destruct (IH a1 b1 cache) as [HR HI']; [lia|done..|].
    destruct (memo a1 b1 cache) as [v c1]. simpl in *.
    split; [by apply R_match|]. apply (store (a0 :: a1) (a0 :: b1)); [done..|].
    by apply R_match. }
  apply Z.eqb_neq in Hab.
  destruct (IH (a0 :: a1) b1 cache) as [HRi HI1]; [simpl; lia|done..|].
  destruct (memo (a0 :: a1) b1 cache) as [i c1]. simpl in HRi, HI1.
  destruct (IH a1 (b0 :: b1) c1) as [HRd HI2]; [simpl; lia|done..|].
  destruct (memo a1 (b0 :: b1) c1) as [d c2]. simpl in HRd, HI2.
  destruct (IH a1 b1 c2) as [HRr HI3]; [lia|done..|].
  destruct (memo a1 b1 c2) as [r c3]. simpl in HRr, HI3.
  destruct a1 as [|a1h a2].
  { simpl. assert (R [a0] (b0 :: b1) (1 + Z.min i (Z.min d r))) as HR.
    { apply R_edit; [done..|]. intros ?????. done. }
    split; [done|]. by apply (store [a0] (b0 :: b1)). }
  destruct b1 as [|b1h b2].
  { simpl. assert (R (a0 :: a1h :: a2) [b0] (1 + Z.min i (Z.min d r))) as HR.
    { apply R_edit; [done..|]. intros ??????. done. }
    split; [done|]. by apply (store (a0 :: a1h :: a2) [b0]). }
  destruct ((a0 =? b1h) && (a1h =? b0)) eqn:Hswap.
  - apply andb_true_iff in Hswap as [H1 H2].
    apply Z.eqb_eq in H1 as <-. apply Z.eqb_eq in H2 as <-.
    destruct (IH a2 b2 c3) as [HRt HI4]; [simpl in Hn; lia|eauto|done|].
    destruct (memo a2 b2 c3) as [t c4]. simpl in HRt, HI4. simpl.
    assert (R (a0 :: a1h :: a2) (a1h :: a0 :: b2)
              (Z.min (1 + Z.min i (Z.min d r)) (1 + t))) as HR.
    { by apply R_transpose. }
    split; [done|]. by apply (store (a0 :: a1h :: a2) (a1h :: a0 :: b2)).
  - simpl.
    assert (R (a0 :: a1h :: a2) (b0 :: b1h :: b2) (1 + Z.min i (Z.min d r))) as HR.
    { apply R_edit; [done..|]. intros x' a' y' b' [= <- <-] [= <- <-] [-> ->].
      by rewrite !Z.eqb_refl in Hswap. }
    split; [done|]. by apply (store (a0 :: a1h :: a2) (b0 :: b1h :: b2)).
Qed.
End Memo.

Lemma damerau_reference_eq (a b : list Z) :
  damerau_reference a b =
    match a, b with
    | [], _ => len b
    | _, [] => len a
    | a0 :: a1, b0 :: b1 =>
        if a0 =? b0 then damerau_reference a1 b1
        else
          let levenshtein :=
            1 + Z.min (damerau_reference a b1)
                  (Z.min (damerau_reference a1 b) (damerau_reference a1 b1)) in
          match a1, b1 with
          | a1h :: a2, b1h :: b2 =>
              if (a0 =? b1h) && (a1h =? b0)
              then Z.min levenshtein (1 + damerau_reference a2 b2)
              else levenshtein
          | _, _ => levenshtein
          end
    end.
Proof. destruct a, b; reflexivity. Qed.

(** Every value the closure returns or stores is between 0 and the sum of
    the lengths, whatever the cache keys collide on. *)
Lemma calculateDamerauLevenshteinDistance_bounds (a b : gostring) :
  0 ≤ (calculateDamerauLevenshteinDistance a b ∅).1 ≤ len a + len b.
Proof.
  pose proof (memo_invariant (λ _ _, True)
    (λ cache, ∀ k v, cache !! k = Some v → 0 ≤ v ≤ len k - 1)
    (λ a b v, 0 ≤ v ≤ len a + len b)) as H.
  apply (H ltac:(done) ltac:(done)) with (n := (length a + length b)%nat);
    clear H; try done.
  - intros a' b' cache v _ HI Hlook. apply HI in Hlook.
    unfold len in *. rewrite length_app in Hlook. simpl in Hlook. lia.
  - intros a' b' cache v _ HI HR k w.
    destruct (decide (k = a' ++ separator :: b')) as [->|Hne].
    + rewrite lookup_insert_eq. intros [= <-].
      unfold len in *. rewrite length_app. simpl. lia.
    + rewrite lookup_insert_ne by done. apply HI.
  - intros b'. unfold len. simpl. lia.
  - intros a'. unfold len. simpl. lia.
  - intros x a' b' v. unfold len. simpl. lia.
  - intros x y a' b' i d r _. unfold len. simpl. lia.
  - intros x y a' b' i d r t _. unfold len. simpl. lia.
Qed.

(** A key is the key of one call only, among calls whose first arguments
    hold no separator, or whose second arguments hold none. *)
Lemma key_inj_l (a a' b b' : gostring) :
  separator ∉ a → separator ∉ a' →
  a ++ separator :: b = a' ++ separator :: b' → a = a' ∧ b = b'.
Proof.
  revert a'. induction a as [|x a IH]; intros [|x' a'] Ha Ha'; simpl.
  - by intros [= ->].
  - intros [= <- _]. by apply not_elem_of_cons in Ha' as [? _].
  - intros [= -> _]. by apply not_elem_of_cons in Ha as [? _].
  - intros [= -> Heq].
    apply not_elem_of_cons in Ha as [_ Ha]. apply not_elem_of_cons in Ha' as [_ Ha'].
    by destruct (IH a' Ha Ha' Heq) as [-> ->].
Qed.

Lemma key_inj_r (a a' b b' : gostring) :
  separator ∉ b → separator ∉ b' →
  a ++ separator :: b = a' ++ separator :: b' → a = a' ∧ b = b'.
Proof.
  intros Hb Hb' Heq.
  assert (reverse b ++ separator :: reverse a = reverse b' ++ separator :: reverse a')
    as Hrev.
  { apply (f_equal reverse) in Heq.
    by rewrite !reverse_app, !reverse_cons, <- !app_assoc in Heq. }
  apply key_inj_l in Hrev as [H1 H2].
  - apply (inj reverse) in H1, H2. by subst.
  - by rewrite elem_of_reverse.
  - by rewrite elem_of_reverse.
Qed.

(** When the separator is missing from one of the two strings, the closure
    computes the recurrence of the specification. *)
Lemma calculateDamerauLevenshteinDistance_reference (a b : gostring) :
  separator ∉ a ∨ separator ∉ b →
  (calculateDamerauLevenshteinDistance a b ∅).1 = damerau_reference a b.
Proof.
  intros Hsep.
  pose proof (memo_invariant (λ a' b', a' `suffix_of` a ∧ b' `suffix_of` b)
    (λ cache, ∀ a' b' v, a' `suffix_of` a → b' `suffix_of` b →
                cache !! (a' ++ separator :: b') = Some v → v = damerau_reference a' b')
    (λ a' b' v, v = damerau_reference a' b')) as H.
  assert (∀ a1 b1 a2 b2, a1 `suffix_of` a → b1 `suffix_of` b →
            a2 `suffix_of` a → b2 `suffix_of` b →
            a1 ++ separator :: b1 = a2 ++ separator :: b2 → a1 = a2 ∧ b1 = b2) as Hkey.
  { intros a1 b1 a2 b2 [k1 ->] [l1 ->] [k2 Ha2] [l2 Hb2] Heq.
    destruct Hsep as [Hsep|Hsep].
    - apply key_inj_l in Heq; [done| |].
      + intros Hin. apply Hsep, elem_of_app. by right.
      + intros Hin. apply Hsep. rewrite Ha2. apply elem_of_app. by right.
    - apply key_inj_r in Heq; [done| |].
      + intros Hin. apply Hsep, elem_of_app. by right.
      + intros Hin. apply Hsep. rewrite Hb2. apply elem_of_app. by right. }
  apply H with (n := (length a + length b)%nat) (cache := ∅); clear H; try done.
  - intros x a' b' [Ha' Hb']. split; [by eapply suffix_cons_l|done].
  - intros y a' b' [Ha' Hb']. split; [done|by eapply suffix_cons_l].
  - intros a' b' cache v [Ha' Hb'] HI Hlook. by eapply HI.
  - intros a' b' cache v [Ha' Hb'] HI -> a2 b2 w Ha2 Hb2.
    destruct (decide (a2 ++ separator :: b2 = a' ++ separator :: b')) as [Heq|Hne].
    + rewrite Heq, lookup_insert_eq. intros [= <-].
      by destruct (Hkey _ _ _ _ Ha2 Hb2 Ha' Hb' Heq) as [-> ->].
    + rewrite lookup_insert_ne by done. by apply HI.
  - intros b'. by rewrite damerau_reference_eq.
  - intros a'. rewrite damerau_reference_eq. by destruct a'.
  - intros x a' b' v ->. by rewrite (damerau_reference_eq (x :: a')), Z.eqb_refl.
  - intros x y a' b' i d r Hxy -> -> -> Hno.
    rewrite (damerau_reference_eq (x :: a') (y :: b')).
    rewrite (proj2 (Z.eqb_neq x y) Hxy). cbv zeta.
    destruct a' as [|x' a'']; [done|]. destruct b' as [|y' b'']; [done|].
    destruct ((x =? y') && (x' =? y)) eqn:Hswap; [|done].
    apply andb_true_iff in Hswap as [H1%Z.eqb_eq H2%Z.eqb_eq].
    by destruct (Hno x' a'' y' b'').
  - intros x y a' b' i d r t Hxy -> -> -> ->.
    rewrite (damerau_reference_eq (x :: y :: a') (y :: x :: b')).
    by rewrite (proj2 (Z.eqb_neq x y) Hxy), !Z.eqb_refl.
Qed.

(** ** The two readings of the Levenshtein recurrence *)

Lemma min_rows_columns (u1 v1 w1 u2 v2 w2 u3 v3 w3 y1 y2 y3 : Z) :
  1 + Z.min u1 (Z.min u2 u3) ≤ y1 →
  1 + Z.min v1 (Z.min v2 v3) ≤ y2 →
  1 + Z.min w1 (Z.min w2 w3) ≤ y3 →
  1 + Z.min (1 + Z.min u1 (Z.min v1 w1))
        (Z.min (1 + Z.min u2 (Z.min v2 w2)) (1 + Z.min u3 (Z.min v3 w3)))
  ≤ 1 + Z.min y1 (Z.min y2 y3).
Proof.
  intros H1 H2 H3. apply Zplus_le_compat_l.
  repeat apply Z.min_glb.
  - clear H2 H3. lia.
  - clear H1 H3. lia.
  - clear H1 H2. lia.
Qed.

(** The recurrence read from the last characters bounds the distance from
    below as well. *)
Lemma RecursiveLevenshtein_snoc_single_ge (x y : Z) (t : list Z) :
  (if x =? y then len t
   else 1 + Z.min (RecursiveLevenshtein [x] t) (len t))
  ≤ RecursiveLevenshtein [x] (t ++ [y]).
Proof.
  induction t as [|c t IH].
  - simpl app. rewrite RecursiveLevenshtein_cons.
    rewrite !RecursiveLevenshtein_nil_l, !RecursiveLevenshtein_nil_r. len_simpl.
    destruct (x =? y); lia.
  - simpl app. rewrite !RecursiveLevenshtein_cons.
    rewrite !RecursiveLevenshtein_nil_l in *. pose proof (len_nonneg t).
    len_simpl. destruct (x =? y), (x =? c); lia.
Qed.

Lemma RecursiveLevenshtein_snoc_ge (x y : Z) (s t : list Z) :
  (if x =? y then RecursiveLevenshtein s t
   else 1 + Z.min (RecursiveLevenshtein (s ++ [x]) t)
              (Z.min (RecursiveLevenshtein s (t ++ [y])) (RecursiveLevenshtein s t)))
  ≤ RecursiveLevenshtein (s ++ [x]) (t ++ [y]).
Proof.
  revert s t. apply distance_ind.
  - intros t. simpl app. pose proof (RecursiveLevenshtein_snoc_single_ge x y t).
    rewrite !RecursiveLevenshtein_nil_l in *. len_simpl.
    destruct (x =? y); lia.
  - intros s. simpl app.
    pose proof (RecursiveLevenshtein_snoc_single_ge y x s) as H.
    rewrite (RecursiveLevenshtein_sym (s ++ [x]) [y]).
    rewrite (RecursiveLevenshtein_sym (s ++ [x]) []).
    rewrite (RecursiveLevenshtein_sym s [y]).
    rewrite !RecursiveLevenshtein_nil_l, !RecursiveLevenshtein_nil_r in *.
    len_simpl. rewrite (Z.eqb_sym x y). destruct (y =? x); lia.
  - intros a b s t IH1 IH2 IH3. simpl app in *. rewrite !RecursiveLevenshtein_cons.
    destruct (x =? y) eqn:Hxy, (a =? b) eqn:Hab; try done.
    + lia.
    + by apply min_rows_columns.
Qed.

Lemma RecursiveLevenshtein_snoc (x y : Z) (s t : list Z) :
  RecursiveLevenshtein (s ++ [x]) (t ++ [y]) =
    if x =? y then RecursiveLevenshtein s t
    else 1 + Z.min (RecursiveLevenshtein (s ++ [x]) t)
               (Z.min (RecursiveLevenshtein s (t ++ [y])) (RecursiveLevenshtein s t)).
Proof.
  pose proof (RecursiveLevenshtein_snoc_ge x y s t).
  pose proof (RecursiveLevenshtein_snoc_both x y s t).
  pose proof (RecursiveLevenshtein_snoc_l x s t).
  pose proof (RecursiveLevenshtein_snoc_r y s t).
  pose proof (RecursiveLevenshtein_snoc_l x s (t ++ [y])).
  pose proof (RecursiveLevenshtein_snoc_r y (s ++ [x]) t).
  destruct (x =? y); lia.
Qed.

(** The distance of the reversed strings is the distance of the strings. *)
Lemma RecursiveLevenshtein_reverse (s t : list Z) :
  RecursiveLevenshtein (reverse s) (reverse t) = RecursiveLevenshtein s t.
Proof.
  revert s t. apply distance_ind.
  - intros t. rewrite !RecursiveLevenshtein_nil_l. unfold len.
    by rewrite length_reverse.
  - intros s. rewrite !RecursiveLevenshtein_nil_r. unfold len.
    by rewrite length_reverse.
  - intros x y s t IH1 IH2 IH3. rewrite !reverse_cons in *.
    rewrite RecursiveLevenshtein_snoc, RecursiveLevenshtein_cons.
    by rewrite IH1, IH2, IH3.
Qed.

(** [DynamicLevenshtein] computes [RecursiveLevenshtein] on the runes. *)
Lemma DynamicLevenshtein_recursive (a b : gostring) :
  DynamicLevenshtein a b = Some (RecursiveLevenshtein (runes a) (runes b)).
Proof. by rewrite DynamicLevenshtein_table, RecursiveLevenshtein_reverse. Qed.

(** Strings of ASCII characters are their own rune sequences. *)
Lemma runes_ascii (s : gostring) :
  Forall (λ c, 0 ≤ c ≤ 127) s → runes s = s.
Proof.
  unfold runes. induction 1 as [|c s Hc _ IH]; [done|]. simpl.
  unfold sequence_of. rewrite (proj2 (in_range_true 0 127 c) Hc). simpl.
  by rewrite IH.
Qed.

Lemma damerau_reference_sym (n : nat) :
  ∀ a b, (length a + length b ≤ n)%nat →
    damerau_reference a b = damerau_reference b a.
Proof.
  induction n as [|n IH]; intros a b Hn.
  { destruct a, b; simpl in Hn; lia || done. }
  rewrite (damerau_reference_eq a b), (damerau_reference_eq b a).
  destruct a as [|a0 a1], b as [|b0 b1]; try done. simpl in Hn.
  rewrite (Z.eqb_sym b0 a0).
  destruct (a0 =? b0); [apply IH; lia|]. cbv zeta.
  rewrite (IH (a0 :: a1) b1), (IH a1 (b0 :: b1)), (IH a1 b1) by (simpl; lia).
  destruct a1 as [|a1h a2], b1 as [|b1h b2]; try lia.
  rewrite (Z.eqb_sym b0 a1h), (Z.eqb_sym b1h a0), (andb_comm (a1h =? b0)).
  rewrite (IH a2 b2) by (simpl in Hn; lia).
  destruct ((a0 =? b1h) && (a1h =? b0)); lia.
Qed.

Lemma damerau_reference_le_levenshtein (n : nat) :
  ∀ a b, (length a + length b ≤ n)%nat →
    damerau_reference a b ≤ RecursiveLevenshtein a b.
Proof.
  induction n as [|n IH]; intros a b Hn.
  { destruct a, b; simpl in Hn; lia || done. }
  rewrite (damerau_reference_eq a b).
  destruct a as [|a0 a1], b as [|b0 b1].
  - by rewrite RecursiveLevenshtein_nil_l.
  - by rewrite RecursiveLevenshtein_nil_l.
  - by rewrite RecursiveLevenshtein_nil_r.
  - simpl in Hn. rewrite RecursiveLevenshtein_cons.
    destruct (a0 =? b0); [apply IH; lia|]. cbv zeta.
    pose proof (IH (a0 :: a1) b1 ltac:(simpl; lia)).
    pose proof (IH a1 (b0 :: b1) ltac:(simpl; lia)).
    pose proof (IH a1 b1 ltac:(lia)).
    destruct a1 as [|a1h a2], b1 as [|b1h b2]; try lia.
    destruct ((a0 =? b1h) && (a1h =? b0)); lia.
Qed.

(** ** What holds of [DamerauLevenshtein] *)

Lemma DamerauLevenshtein_reference (a b : gostring) :
  separator ∉ a ∨ separator ∉ b →
  DamerauLevenshtein a b = Some (damerau_reference a b).
Proof.
  intros Hsep. unfold DamerauLevenshtein.
  by rewrite calculateDamerauLevenshteinDistance_reference.
Qed.

Lemma DamerauLevenshtein_bounds (a b : gostring) :
  ∃ d, DamerauLevenshtein a b = Some d ∧ 0 ≤ d ≤ len a + len b.
Proof.
  eexists. split; [done|]. apply calculateDamerauLevenshteinDistance_bounds.
Qed.

Lemma DamerauLevenshtein_sym_without_collision (a b : gostring) :
  separator ∉ a ∨ separator ∉ b →
  DamerauLevenshtein a b = DamerauLevenshtein b a.
Proof.
  intros Hsep. rewrite !DamerauLevenshtein_reference by tauto.
  by rewrite (damerau_reference_sym (length a + length b)).
Qed.

Lemma DamerauLevenshtein_le_Levenshtein_ascii (a b : gostring) :
  Forall (λ c, 0 ≤ c ≤ 127) a → Forall (λ c, 0 ≤ c ≤ 127) b →
  separator ∉ a ∨ separator ∉ b →
  ∃ d l, DamerauLevenshtein a b = Some d ∧ LevenshteinDistance a b = Some l ∧ d ≤ l.
Proof.
  intros Ha Hb Hsep. eexists _, _.
  split; [by apply DamerauLevenshtein_reference|].
  split; [apply DynamicLevenshtein_recursive|].
  rewrite (runes_ascii a Ha), (runes_ascii b Hb).
  by apply (damerau_reference_le_levenshtein (length a + length b)).
Qed.

(** ** The loops of [JaroSimilarity] *)

Lemma marked_nil : marked [] = 0%nat.
Proof. done. Qed.

Lemma marked_cons (m : Z) (l : list Z) :
  marked (m :: l) = ((if decide (m = 0%Z) then 0 else 1) + marked l)%nat.
Proof.
  unfold marked. rewrite filter_cons. case_decide; case_decide; simpl; lia || done.
Qed.

Lemma marked_app (l k : list Z) : marked (l ++ k) = (marked l + marked k)%nat.
Proof. unfold marked. by rewrite filter_app, length_app. Qed.

Lemma marked_le_length (l : list Z) : (marked l ≤ length l)%nat.
Proof. apply length_filter. Qed.

Lemma marked_replicate (n : nat) : marked (replicate n 0) = 0%nat.
Proof.
  induction n as [|n IH]; [done|]. simpl. rewrite marked_cons, IH.
  by case_decide.
Qed.

Lemma marked_insert (l : list Z) (p : nat) :
  l !! p = Some 0 → marked (<[p := 1]> l) = S (marked l).
Proof.
  revert p. induction l as [|m l IH]; intros [|p] Hp; simpl in *; try done.
  - injection Hp as ->. rewrite !marked_cons. repeat case_decide; lia.
  - rewrite !marked_cons, (IH p Hp). lia.
Qed.

Lemma idx_Some {A} (s : list A) (i : Z) :
  0 ≤ i < len s → ∃ x, idx s i = Some x ∧ s !! Z.to_nat i = Some x.
Proof.
  intros Hi. unfold idx. rewrite (proj2 (Z.ltb_ge i 0)) by lia.
  destruct (lookup_lt_is_Some_2 s (Z.to_nat i)) as [x Hx]; [unfold len in Hi; lia|].
  by exists x.
Qed.

Lemma upd_Some {A} (s : list A) (i : Z) (v : A) :
  0 ≤ i < len s → upd s i v = Some (<[Z.to_nat i := v]> s).
Proof.
  intros Hi. unfold upd.
  by rewrite (proj2 (Z.leb_le 0 i)), (proj2 (Z.ltb_lt i (len s))) by lia.
Qed.

(** The inner loop returns, with an unmatched position of its range if any. *)
Lemma find_match_spec (inputString targetString : gostring) (i : Z)
    (targetStringMatrix : list Z) (count : nat) (j : Z) :
  0 ≤ i < len inputString →
  length targetStringMatrix = length targetString →
  (count = 0%nat ∨ (0 ≤ j ∧ j + Z.of_nat count ≤ len targetString)) →
  find_match count j inputString targetString i targetStringMatrix = Some None ∨
  ∃ j', find_match count j inputString targetString i targetStringMatrix
          = Some (Some j') ∧
        0 ≤ j' < len targetString ∧ targetStringMatrix !! Z.to_nat j' = Some 0.
Proof.
  intros Hi Hlen. revert j. induction count as [|k IH]; intros j Hj; simpl; [by left|].
  destruct Hj as [|[Hj0 Hj1]]; [done|].
  destruct (idx_Some inputString i Hi) as (ci & -> & _). simpl.
  destruct (idx_Some targetString j) as (tj & -> & _); [lia|]. simpl.
  assert (k = 0%nat ∨ 0 ≤ j + 1 ∧ j + 1 + Z.of_nat k ≤ len targetString) as Hnext
    by (right; lia).
  destruct (ci =? tj); [|by apply IH].
  destruct (idx_Some targetStringMatrix j) as (mj & -> & Hmj);
    [unfold len in *; lia|]. simpl.
  destruct (mj =? 0) eqn:Hz; [|by apply IH].
  apply Z.eqb_eq in Hz as ->. right. exists j. split; [done|]. split; [lia|done].
Qed.

Lemma match_step_spec (inputString targetString : gostring) (i : nat)
    (st : Z * list Z * list Z) :
  (i < length inputString)%nat →
  matching (length inputString) (length targetString) i st →
  ∃ st', match_step inputString targetString i st = Some st' ∧
         matching (length inputString) (length targetString) (S i) st'.
Proof.
  destruct st as [[matches iM] tM].
  intros Hi (HliM & HltM & Hdrop & Hbin & Hm & Heq).
  unfold match_step.
  set (mmd := max_match_distance (len inputString) (len targetString)).
  set (start := Z.max 0 (Z.of_nat i - mmd)).
  set (end_ := Z.min (len targetString) (Z.of_nat i + mmd + 1)).
  assert (iM !! i = Some 0) as Hcell.
  { rewrite <- (take_drop i iM), Hdrop, lookup_app_r by (rewrite length_take; lia).
    rewrite length_take, lookup_replicate. split; [done|]. lia. }
  assert (drop (S i) iM = replicate (length inputString - S i) 0) as Hdrop'.
  { rewrite <- (Nat.add_1_r i), <- drop_drop.
    rewrite Hdrop. rewrite drop_replicate. f_equal. lia. }
  assert (0 ≤ start ∧ end_ ≤ len targetString) as Hrange by (subst start end_; lia).
  destruct (find_match_spec inputString targetString (Z.of_nat i) tM
              (Z.to_nat (end_ - start)) start) as [->|(j & -> & Hj & Hfree)].
  { unfold len. lia. }
  { done. }
  { clearbody start end_. destruct (decide (end_ ≤ start)); [left|right]; lia. }
  - simpl. eexists. split; [done|]. repeat split; try done.
  - assert (0 ≤ Z.of_nat i < len iM) as Hi' by (unfold len; lia).
    assert (0 ≤ j < len tM) as Hj' by (unfold len in *; lia).
    simpl. rewrite (upd_Some iM _ _ Hi'). simpl.
    rewrite (upd_Some tM _ _ Hj'). simpl.
    eexists. split; [done|]. rewrite Nat2Z.id.
    repeat split.
    + by rewrite length_insert.
    + by rewrite length_insert.
    + by rewrite drop_insert_lt by lia.
    + apply Forall_insert; [done|by right].
    + rewrite (marked_insert _ _ Hcell). lia.
    + rewrite (marked_insert _ _ Hcell), (marked_insert _ _ Hfree). lia.
Qed.

(** The marker finds the next marked cell when one is left. *)
Lemma skip_unmatched_spec (rest : list Z) (marker : nat) :
  (0 < marked rest)%nat →
  ∃ k, skip_unmatched rest marker = Some (marker + k)%nat ∧
       (k < length rest)%nat ∧
       S (marked (drop (S k) rest)) = marked rest.
Proof.
  revert marker. induction rest as [|m rest IH]; intros marker Hpos.
  { rewrite marked_nil in Hpos. lia. }
  simpl. rewrite marked_cons in Hpos. destruct (m =? 0) eqn:Hm.
  - apply Z.eqb_eq in Hm as ->. rewrite decide_True in Hpos by done.
    destruct (IH (S marker) Hpos) as (k & -> & Hk & Hmarked).
    exists (S k). split; [f_equal; lia|]. split; [lia|].
    rewrite marked_cons, decide_True by done. exact Hmarked.
  - apply Z.eqb_neq in Hm. exists 0%nat. split; [f_equal; lia|]. split; [lia|].
    rewrite marked_cons, decide_False by done. by rewrite drop_0.
Qed.

Lemma transposition_step_spec (inputString targetString : gostring)
    (inputStringMatrix targetStringMatrix : list Z) (i : nat) (st : Z * nat) :
  length inputStringMatrix = length inputString →
  length targetStringMatrix = length targetString →
  Forall (λ m, m = 0 ∨ m = 1) inputStringMatrix →
  (i < length inputString)%nat →
  pairing inputStringMatrix targetStringMatrix i st →
  ∃ st', transposition_step inputString targetString
           inputStringMatrix targetStringMatrix i st = Some st' ∧
         pairing inputStringMatrix targetStringMatrix (S i) st'.
Proof.
  destruct st as [transpositions marker].
  intros HliM HltM Hbin Hi [Hleft Ht]. unfold transposition_step.
  destruct (lookup_lt_is_Some_2 inputStringMatrix i) as [mi Hmi]; [lia|].
  rewrite Hmi. simpl.
  assert (mi = 0 ∨ mi = 1) as Hcases by (by eapply Forall_lookup_1 in Hbin).
  assert (marked (drop i inputStringMatrix) =
            ((if decide (mi = 0%Z) then 0 else 1)
             + marked (drop (S i) inputStringMatrix))%nat) as Hdrop.
  { by rewrite (drop_S _ _ _ Hmi), marked_cons. }
  assert (marked (take (S i) inputStringMatrix) =
            (marked (take i inputStringMatrix)
             + (if decide (mi = 0%Z) then 0 else 1))%nat) as Htake.
  { rewrite (take_S_r _ _ _ Hmi), marked_app, marked_cons, marked_nil. lia. }
  destruct Hcases as [-> | ->]; simpl.
  - rewrite decide_True in Hdrop, Htake by done.
    eexists. split; [done|]. split; lia.
  - rewrite decide_False in Hdrop, Htake by done.
    destruct (skip_unmatched_spec (drop marker targetStringMatrix) marker)
      as (k & -> & Hk & Hmarked); [lia|]. simpl.
    rewrite length_drop in Hk.
    destruct (lookup_lt_is_Some_2 inputString i) as [ci ->]; [lia|]. simpl.
    destruct (lookup_lt_is_Some_2 targetString (marker + k)) as [tm ->]; [lia|].
    simpl. eexists. split; [done|]. split.
    + rewrite drop_drop in Hmarked.
      replace (S (marker + k)) with (marker + S k)%nat by lia. lia.
    + destruct (ci =? tm); lia.
Qed.

Lemma calculateTranspositions_spec (inputString targetString : gostring)
    (inputStringMatrix targetStringMatrix : list Z) :
  length inputStringMatrix = length inputString →
  length targetStringMatrix = length targetString →
  Forall (λ m, m = 0 ∨ m = 1) inputStringMatrix →
  marked inputStringMatrix = marked targetStringMatrix →
  ∃ t, calculateTranspositions inputString targetString
         inputStringMatrix targetStringMatrix = Some t ∧
       0 ≤ t ∧ 2 * t ≤ Z.of_nat (marked inputStringMatrix).
Proof.
  intros HliM HltM Hbin Heq. unfold calculateTranspositions.
  destruct (for_loop_invariant (pairing inputStringMatrix targetStringMatrix)
              (transposition_step inputString targetString
                 inputStringMatrix targetStringMatrix)
              (length inputString) 0 (0, 0%nat))
    as ([t marker] & -> & _ & Ht).
  - split; [by rewrite !drop_0|]. by rewrite take_0, marked_nil.
  - intros i st Hi Hst. apply transposition_step_spec; [done..|lia|done].
  - simpl in *. rewrite <- HliM, firstn_all in Ht.
    eexists. split; [done|].
    pose proof (Z.quot_pos t 2). pose proof (Z.mul_quot_le t 2). lia.
Qed.

(** [JaroSimilarity] never panics. For distinct strings it counts [matches]
    and [transpositions] with [0 <= 2 * transpositions <= matches <=
    min(len a, len b)] and returns 0 or the expression over them. *)
Lemma JaroSimilarity_anatomy (inputString targetString : gostring) :
  inputString ≠ targetString →
  ∃ matches transpositions,
    0 ≤ matches ≤ Z.min (len inputString) (len targetString) ∧
    0 ≤ transpositions ∧ 2 * transpositions ≤ matches ∧
    JaroSimilarity inputString targetString =
      Some (if matches <? 1 then zero
            else jaro_value matches transpositions
                   (len inputString) (len targetString)).
Proof.
  intros Hne. unfold JaroSimilarity, eqstr.
  rewrite bool_decide_eq_false_2 by done.
  destruct (for_loop_invariant
              (matching (length inputString) (length targetString))
              (match_step inputString targetString) (length inputString) 0
              (0, replicate (length inputString) 0, replicate (length targetString) 0))
    as ([[matches iM] tM] & -> & HliM & HltM & _ & Hbin & Hm & Heq).
  - repeat split.
    + by rewrite length_replicate.
    + by rewrite length_replicate.
    + by rewrite drop_0, Nat.sub_0_r.
    + apply Forall_replicate. by left.
    + by rewrite marked_replicate.
    + by rewrite !marked_replicate.
  - intros i st Hi Hst. apply match_step_spec; [lia|done].
  - simpl.
    pose proof (marked_le_length iM). pose proof (marked_le_length tM).
    destruct (calculateTranspositions_spec inputString targetString iM tM)
      as (t & Ht & Ht0 & Ht2); [done..|].
    exists matches, t. split; [unfold len; lia|]. split; [done|]. split; [lia|].
    destruct (matches <? 1); [done|]. by rewrite Ht.
Qed.

Lemma JaroSimilarity_total (inputString targetString : gostring) :
  is_Some (JaroSimilarity inputString targetString).
Proof.
  destruct (decide (inputString = targetString)) as [->|Hne].
  - unfold JaroSimilarity, eqstr. by rewrite bool_decide_eq_true_2.
  - destruct (JaroSimilarity_anatomy _ _ Hne) as (m & t & _ & _ & _ & ->). done.
Qed.

Lemma lib_suggest_loop_eq (word : gostring) (validWords : list gostring)
    (st : float32 * gostring) :
  lib_suggest_loop word validWords st = suggest_loop word JaroSimilarity validWords st.
Proof.
  revert st. induction validWords as [|w ws IH]; intros st; simpl; [done|].
  unfold suggest_step. destruct (JaroSimilarity word w) as [res|]; simpl; [|done].
  apply IH.
Qed.

(** [speyl.SuggestWord] is [algorithms.SuggestWord] with [JaroSimilarity]. *)
Lemma lib_SuggestWord_eq (word : gostring) (validWords : list gostring) :
  lib_SuggestWord word validWords = SuggestWord word validWords JaroSimilarity.
Proof. unfold lib_SuggestWord, SuggestWord. by rewrite lib_suggest_loop_eq. Qed.

(** ** The three distances: base cases and symmetry *)

Lemma LevenshteinDistance_sym (a b : gostring) :
  LevenshteinDistance a b = LevenshteinDistance b a.
Proof.
  unfold LevenshteinDistance. rewrite !DynamicLevenshtein_table.
  by rewrite RecursiveLevenshtein_sym.
Qed.

Lemma IndelDistance_sym (a b : gostring) : IndelDistance a b = IndelDistance b a.
Proof. unfold IndelDistance. by rewrite IndelDistance_rec_sym. Qed.

(** [LevenshteinDistance] against the empty string counts runes. *)
Lemma LevenshteinDistance_empty (s : gostring) :
  LevenshteinDistance [] s = Some (len (runes s)) ∧
  LevenshteinDistance s [] = Some (len (runes s)).
Proof.
  unfold LevenshteinDistance. rewrite !DynamicLevenshtein_table. simpl.
  rewrite RecursiveLevenshtein_nil_l, RecursiveLevenshtein_nil_r.
  unfold len. by rewrite length_reverse.
Qed.

(** [IndelDistance] and [DamerauLevenshtein] against it count bytes. *)
Lemma IndelDistance_empty (s : gostring) :
  IndelDistance [] s = Some (len s) ∧ IndelDistance s [] = Some (len s).
Proof.
  unfold IndelDistance.
  by rewrite IndelDistance_rec_nil_l, IndelDistance_rec_nil_r.
Qed.

Lemma DamerauLevenshtein_empty (s : gostring) :
  DamerauLevenshtein [] s = Some (len s) ∧ DamerauLevenshtein s [] = Some (len s).
Proof.
  unfold DamerauLevenshtein. split.
  - destruct s; simpl; by rewrite lookup_empty.
  - destruct s; simpl; by rewrite lookup_empty.
Qed.

(** The integers that [CalculateSimilarity] divides: each distance lies
    between 0 and [len a + len b]. *)
Lemma distances_within_lengths (a b : gostring) :
  ∃ levenshtein indel damerau,
    LevenshteinDistance a b = Some levenshtein ∧
    IndelDistance a b = Some indel ∧
    DamerauLevenshtein a b = Some damerau ∧
    0 ≤ levenshtein ≤ len a + len b ∧
    0 ≤ indel ≤ len a + len b ∧
    0 ≤ damerau ≤ len a + len b.
Proof.
  exists (rune_distance a b), (IndelDistance_rec a b),
    (calculateDamerauLevenshteinDistance a b ∅).1.
  split; [apply DynamicLevenshtein_table|]. split; [done|]. split; [done|].
  split; [|split].
  - pose proof (RecursiveLevenshtein_bounds (reverse (runes a)) (reverse (runes b))) as H.
    pose proof (runes_length a). pose proof (runes_length b).
    unfold rune_distance, len in *. rewrite !length_reverse in H. lia.
  - apply IndelDistance_rec_bounds.
  - apply calculateDamerauLevenshteinDistance_bounds.
Qed.

(** C3. On the inputs "x|" and "|||" the call for the empty string against
    "||" and the call for "|" against "|" share the cache key "|||":
    [DamerauLevenshtein] returns 1 where the recurrence of the specification
    gives 2. *)
Theorem DamerauLevenshtein_separator_collision :
  DamerauLevenshtein (str "x|") (str "|||") = Some 1 ∧
  damerau_reference (str "x|") (str "|||") = 2.
Proof. split; by vm_compute. Qed.

(** C4. [DamerauLevenshtein] exceeds [LevenshteinDistance] on "x||" and "||"
    (a stale cache entry under the key "|||"), and on the two-byte
    characters U+00E9 and U+0113, which it compares byte by byte. *)
Theorem DamerauLevenshtein_above_Levenshtein :
  DamerauLevenshtein (str "x||") (str "||") = Some 2 ∧
  LevenshteinDistance (str "x||") (str "||") = Some 1 ∧
  DamerauLevenshtein [195; 169] [196; 147] = Some 2 ∧
  LevenshteinDistance [195; 169] [196; 147] = Some 1.
Proof. repeat split; by vm_compute. Qed.

(** C5. For the one-character string U+00E9 (bytes C3 A9),
    [LevenshteinDistance] from and to the empty string is 1, the number of
    its scalar values, while [IndelDistance] and [DamerauLevenshtein] give 2,
    the number of its bytes. *)
Theorem empty_string_base_cases_count_bytes :
  ValidString [195; 169] = true ∧ runes [195; 169] = [233] ∧
  LevenshteinDistance [] [195; 169] = Some 1 ∧
  LevenshteinDistance [195; 169] [] = Some 1 ∧
  IndelDistance [] [195; 169] = Some 2 ∧
  IndelDistance [195; 169] [] = Some 2 ∧
  DamerauLevenshtein [] [195; 169] = Some 2 ∧
  DamerauLevenshtein [195; 169] [] = Some 2.
Proof. repeat split; by vm_compute. Qed.

(** C6. [DamerauLevenshtein] is not symmetric on "x|" and "|||": 1 one way,
    2 the other. *)
Theorem DamerauLevenshtein_asymmetric :
  DamerauLevenshtein (str "x|") (str "|||") = Some 1 ∧
  DamerauLevenshtein (str "|||") (str "x|") = Some 2.
Proof. split; by vm_compute. Qed.

(** Well-formedness matters: the two bytes E2 82 are two runes U+FFFD for
    [LevenshteinDistance], and one byte short of the three-byte U+20AC for
    [IndelDistance]. *)
Lemma IndelDistance_below_Levenshtein_ill_formed :
  ValidString [226; 130] = false ∧
  LevenshteinDistance [226; 130] [226; 130; 172] = Some 2 ∧
  IndelDistance [226; 130] [226; 130; 172] = Some 1.
Proof. repeat split; by vm_compute. Qed.

(** C7. For every pair of well-formed UTF-8 strings both distances are
    defined and [IndelDistance] is at least [LevenshteinDistance]. *)
Theorem IndelDistance_ge_LevenshteinDistance (a b : gostring) :
  ValidString a = true → ValidString b = true →
  ∃ levenshtein indel,
    LevenshteinDistance a b = Some levenshtein ∧
    IndelDistance a b = Some indel ∧
    (indel >= levenshtein)%Z.
Proof.
  intros Ha Hb. exists (rune_distance a b), (IndelDistance_rec a b).
  split; [apply DynamicLevenshtein_table|]. split; [done|].
  apply Z.le_ge. by apply rune_distance_le_indel.
Qed.

(** C9. For the query "almni" and the candidates "hi", "hello", "bonjour",
    "alumni", [SuggestWord] with the Jaro similarity returns "alumni" with a
    likelihood within 1e-3 of 0.944. *)
Theorem SuggestWord_almni :
  ∃ r v,
    SuggestWord (str "almni") [str "hi"; str "hello"; str "bonjour"; str "alumni"]
      JaroSimilarity = Some r ∧
    Word r = str "alumni" ∧
    to_Q (Likelihood r) = Some v ∧
    Qle (Qabs (Qminus v (944 # 1000))) (1 # 1000).
Proof.
  eexists _, _. split; [by vm_compute|]. split; [done|]. split; [done|].
  by vm_compute.
Qed.

(** C10. When the similarity function returns for every candidate,
    [SuggestWord] returns a suggestion whose word is empty or one of the
    candidates; a non-empty word comes with a strictly positive likelihood,
    which is the similarity of the query and that word. The same holds of
    [speyl.SuggestWord], whose similarity function always returns. *)
Theorem SuggestWord_invariant (inputString : gostring) (validStrings : list gostring) :
  (∀ algorithm : SimilarityAlgorithm,
     Forall (λ c, is_Some (algorithm inputString c)) validStrings →
     ∃ r, SuggestWord inputString validStrings algorithm = Some r ∧
          well_selected inputString validStrings algorithm r) ∧
  (∃ r, lib_SuggestWord inputString validStrings = Some r ∧
        well_selected inputString validStrings JaroSimilarity r).
Proof.
  assert (∀ algorithm : SimilarityAlgorithm,
     Forall (λ c, is_Some (algorithm inputString c)) validStrings →
     ∃ r, SuggestWord inputString validStrings algorithm = Some r ∧
          well_selected inputString validStrings algorithm r) as Hgeneric.
  { intros algorithm Htotal. unfold SuggestWord.
    destruct (suggest_loop_selected inputString algorithm validStrings [] (zero, []))
      as ([ratio result] & -> & Hsel); [by left|done|].
    eexists. split; [done|]. unfold well_selected. simpl.
    destruct Hsel as [[= -> ->]|(Hin & Hpos & Hval)]; simpl in *.
    - split; [by left|done].
    - split; [by right|done]. }
  split; [exact Hgeneric|].
  rewrite lib_SuggestWord_eq. apply Hgeneric.
  apply Forall_forall. intros c _. apply JaroSimilarity_total.
Qed.

(** ** Instances *)

Lemma SuggestWord_scan_witness :
  SuggestWord (str "almni")
    ([str "hi"; str "hello"] ++ str "alumni" :: [str "bonjour"; str "alumni"])
    JaroSimilarity
  = Some {| Likelihood := S754_finite false 15845148 (-24); Word := str "alumni" |}.
Proof.
  apply (proj2 (proj2 (SuggestWord_scan (str "almni") JaroSimilarity))).
  - by vm_compute.
  - by vm_compute.
  - repeat constructor; eexists; (split; [by vm_compute|]); by vm_compute.
  - repeat constructor; eexists; (split; [by vm_compute|]); by vm_compute.
Defined.

Lemma SuggestWordWithThreshold_strict_witness :
  SuggestWordWithThreshold (str "almni") [str "hi"; str "alumni"]
    (S754_finite false 15845148 (-24)) JaroSimilarity = Some [] ∧
  SuggestWordWithThreshold (str "almni") [str "hi"; str "alumni"]
    (S754_finite false 15845147 (-24)) JaroSimilarity = Some (str "alumni").
Proof.
  split.
  - apply (proj2 (SuggestWordWithThreshold_strict (str "almni")
              [str "hi"; str "alumni"] (S754_finite false 15845148 (-24))
              JaroSimilarity)
             {| Likelihood := S754_finite false 15845148 (-24);
                Word := str "alumni" |}); by vm_compute.
  - apply (proj2 (SuggestWordWithThreshold_strict (str "almni")
              [str "hi"; str "alumni"] (S754_finite false 15845147 (-24))
              JaroSimilarity)
             {| Likelihood := S754_finite false 15845148 (-24);
                Word := str "alumni" |}); by vm_compute.
Defined.

Lemma SuggestWord_invariant_witness :
  ∃ r, SuggestWord (str "almni") [str "hi"; str "hello"; str "bonjour"; str "alumni"]
         JaroSimilarity = Some r ∧
       well_selected (str "almni")
         [str "hi"; str "hello"; str "bonjour"; str "alumni"] JaroSimilarity r.
Proof.
  apply (proj1 (SuggestWord_invariant (str "almni")
                  [str "hi"; str "hello"; str "bonjour"; str "alumni"])
           JaroSimilarity).
  repeat (apply Forall_cons_2; [vm_compute; by eexists|]). apply Forall_nil_2.
Defined.

Lemma IndelDistance_ge_LevenshteinDistance_witness :
  ∃ levenshtein indel,
    LevenshteinDistance [195; 169; 116; 195; 169] [101; 116; 196; 147]
      = Some levenshtein ∧
    IndelDistance [195; 169; 116; 195; 169] [101; 116; 196; 147] = Some indel ∧
    (indel >= levenshtein)%Z.
Proof.
  apply (IndelDistance_ge_LevenshteinDistance
           [195; 169; 116; 195; 169] [101; 116; 196; 147]); by vm_compute.
Defined.

(** * Further properties of the code *)

(** ** The Levenshtein recurrence as a metric *)

(** One character more at the front of the input moves the distance by at
    most one, either way. *)
Lemma RecursiveLevenshtein_cons_l (n : nat) :
  ∀ (x : Z) (s t : list Z), (length s + length t ≤ n)%nat →
    RecursiveLevenshtein (x :: s) t ≤ 1 + RecursiveLevenshtein s t ∧
    RecursiveLevenshtein s t ≤ 1 + RecursiveLevenshtein (x :: s) t.
Proof.
  induction n as [|n IH]; intros x s t Hn.
  { destruct s, t; simpl in Hn; try lia. by vm_compute. }
  destruct t as [|y t].
  { rewrite !RecursiveLevenshtein_nil_r. len_simpl. lia. }
  rewrite RecursiveLevenshtein_cons.
  assert (RecursiveLevenshtein (y :: t) s ≤ 1 + RecursiveLevenshtein t s ∧
          RecursiveLevenshtein t s ≤ 1 + RecursiveLevenshtein (y :: t) s) as Hflip.
  { apply IH. simpl in Hn. lia. }
  rewrite !(RecursiveLevenshtein_sym _ s) in Hflip.
  destruct (IH x s t ltac:(simpl in Hn; lia)) as [Hup Hlow].
  pose proof (RecursiveLevenshtein_bounds s t).
  destruct (x =? y); lia.
Qed.

Lemma RecursiveLevenshtein_cons_r (y : Z) (s t : list Z) :
  RecursiveLevenshtein s (y :: t) ≤ 1 + RecursiveLevenshtein s t ∧
  RecursiveLevenshtein s t ≤ 1 + RecursiveLevenshtein s (y :: t).
Proof.
  rewrite !(RecursiveLevenshtein_sym s).
  by apply (RecursiveLevenshtein_cons_l (length t + length s)).
Qed.

(** The recurrence with every candidate: the greedy step on equal first
    characters loses nothing. *)
Lemma RecursiveLevenshtein_cons_le (x y : Z) (s t : list Z) :
  RecursiveLevenshtein (x :: s) (y :: t)
    ≤ RecursiveLevenshtein s t + (if x =? y then 0 else 1) ∧
  RecursiveLevenshtein (x :: s) (y :: t) ≤ 1 + RecursiveLevenshtein s (y :: t) ∧
  RecursiveLevenshtein (x :: s) (y :: t) ≤ 1 + RecursiveLevenshtein (x :: s) t.
Proof.
  pose proof (RecursiveLevenshtein_cons_l (length s + length (y :: t)) x s (y :: t)
                ltac:(done)) as [H1 _].
  pose proof (RecursiveLevenshtein_cons_r y (x :: s) t) as [H2 _].
  rewrite RecursiveLevenshtein_cons in *. destruct (x =? y); lia.
Qed.

Lemma RecursiveLevenshtein_length_diff (s t : list Z) :
  len s - len t ≤ RecursiveLevenshtein s t ∧ len t - len s ≤ RecursiveLevenshtein s t.
Proof.
  revert s t. apply distance_ind.
  - intros t. rewrite RecursiveLevenshtein_nil_l. len_simpl. lia.
  - intros s. rewrite RecursiveLevenshtein_nil_r. len_simpl. lia.
  - intros x y s t IH1 IH2 IH3. rewrite RecursiveLevenshtein_cons.
    len_simpl. destruct (x =? y); lia.
Qed.

Lemma RecursiveLevenshtein_zero (s t : list Z) :
  RecursiveLevenshtein s t = 0 ↔ s = t.
Proof.
  revert s t. apply distance_ind.
  - intros t. rewrite RecursiveLevenshtein_nil_l. destruct t; [done|].
    len_simpl. split; [lia|done].
  - intros s. rewrite RecursiveLevenshtein_nil_r. destruct s; [done|].
    len_simpl. split; [lia|done].
  - intros x y s t IH1 IH2 IH3. rewrite RecursiveLevenshtein_cons.
    pose proof (RecursiveLevenshtein_bounds (x :: s) t).
    pose proof (RecursiveLevenshtein_bounds s (y :: t)).
    pose proof (RecursiveLevenshtein_bounds s t).
    destruct (x =? y) eqn:Hxy.
    + apply Z.eqb_eq in Hxy as ->. rewrite IH1. split; [by intros ->|by intros [= ->]].
    + apply Z.eqb_neq in Hxy. split; [lia|]. by intros [= -> ->].
Qed.

(** Which candidate the recurrence takes. *)
Lemma RecursiveLevenshtein_cons_cases (x y : Z) (s t : list Z) :
  (x = y ∧ RecursiveLevenshtein (x :: s) (y :: t) = RecursiveLevenshtein s t) ∨
  (x ≠ y ∧
   (RecursiveLevenshtein (x :: s) (y :: t) = 1 + RecursiveLevenshtein (x :: s) t ∨
    RecursiveLevenshtein (x :: s) (y :: t) = 1 + RecursiveLevenshtein s (y :: t) ∨
    RecursiveLevenshtein (x :: s) (y :: t) = 1 + RecursiveLevenshtein s t)).
Proof.
  rewrite RecursiveLevenshtein_cons. destruct (x =? y) eqn:Hxy.
  - left. by apply Z.eqb_eq in Hxy.
  - right. apply Z.eqb_neq in Hxy. split; [done|]. lia.
Qed.

Lemma RecursiveLevenshtein_triangle (n : nat) :
  ∀ a b c : list Z, (length a + length b + length c ≤ n)%nat →
    RecursiveLevenshtein a c ≤ RecursiveLevenshtein a b + RecursiveLevenshtein b c.
Proof.
  induction n as [|n IH]; intros a b c Hn.
  { destruct a, b, c; simpl in Hn; try lia. by vm_compute. }
  destruct a as [|x a].
  { rewrite !RecursiveLevenshtein_nil_l.
    pose proof (RecursiveLevenshtein_length_diff b c). lia. }
  destruct c as [|z c].
  { rewrite !RecursiveLevenshtein_nil_r.
    pose proof (RecursiveLevenshtein_length_diff (x :: a) b). lia. }
  destruct b as [|y b].
  { rewrite RecursiveLevenshtein_nil_l, RecursiveLevenshtein_nil_r.
    pose proof (RecursiveLevenshtein_bounds (x :: a) (z :: c)). len_simpl. lia. }
  simpl in Hn.
  destruct (RecursiveLevenshtein_cons_le x z a c) as (Hs & Hd & Hi).
  pose proof (IH a (y :: b) (z :: c) ltac:(simpl; lia)) as T1.
  pose proof (IH (x :: a) (y :: b) c ltac:(simpl; lia)) as T2.
  pose proof (IH (x :: a) b (z :: c) ltac:(simpl; lia)) as T3.
  pose proof (IH (x :: a) b c ltac:(simpl; lia)) as T4.
  pose proof (IH a b (z :: c) ltac:(simpl; lia)) as T5.
  pose proof (IH a b c ltac:(simpl; lia)) as T6.
  destruct (RecursiveLevenshtein_cons_cases x y a b) as [[Hxy HA]|[Hxy [HA|[HA|HA]]]];
    destruct (RecursiveLevenshtein_cons_cases y z b c) as [[Hyz HB]|[Hyz [HB|[HB|HB]]]];
    destruct (Z.eqb_spec x z); lia.
Qed.

(** ** The indel recurrence; strings with no byte in common *)

Lemma IndelDistance_rec_cons_l (n : nat) :
  ∀ (x : Z) (s t : gostring), (length s + length t ≤ n)%nat →
    IndelDistance_rec (x :: s) t ≤ 1 + IndelDistance_rec s t ∧
    IndelDistance_rec s t ≤ 1 + IndelDistance_rec (x :: s) t.
Proof.
  induction n as [|n IH]; intros x s t Hn.
  { destruct s, t; simpl in Hn; try lia. by vm_compute. }
  destruct t as [|y t].
  { rewrite !IndelDistance_rec_nil_r. len_simpl. lia. }
  rewrite IndelDistance_rec_cons.
  assert (IndelDistance_rec (y :: t) s ≤ 1 + IndelDistance_rec t s ∧
          IndelDistance_rec t s ≤ 1 + IndelDistance_rec (y :: t) s) as Hflip.
  { apply IH. simpl in Hn. lia. }
  rewrite !(IndelDistance_rec_sym _ s) in Hflip.
  destruct (IH x s t ltac:(simpl in Hn; lia)) as [Hup Hlow].
  destruct (x =? y); lia.
Qed.

Lemma IndelDistance_rec_cons_r (y : Z) (s t : gostring) :
  IndelDistance_rec s (y :: t) ≤ 1 + IndelDistance_rec s t ∧
  IndelDistance_rec s t ≤ 1 + IndelDistance_rec s (y :: t).
Proof.
  rewrite !(IndelDistance_rec_sym s).
  by apply (IndelDistance_rec_cons_l (length t + length s)).
Qed.

Lemma IndelDistance_rec_cons_cases (x y : Z) (s t : gostring) :
  (x = y ∧ IndelDistance_rec (x :: s) (y :: t) = IndelDistance_rec s t) ∨
  (x ≠ y ∧
   (IndelDistance_rec (x :: s) (y :: t) = 1 + IndelDistance_rec (x :: s) t ∨
    IndelDistance_rec (x :: s) (y :: t) = 1 + IndelDistance_rec s (y :: t))).
Proof.
  rewrite IndelDistance_rec_cons. destruct (Z.eqb_spec x y); [by left|right].
  split; [done|]. lia.
Qed.

Lemma IndelDistance_rec_length_diff (s t : gostring) :
  len s - len t ≤ IndelDistance_rec s t ∧ len t - len s ≤ IndelDistance_rec s t.
Proof.
  revert s t. apply distance_ind.
  - intros t. rewrite IndelDistance_rec_nil_l. len_simpl. lia.
  - intros s. rewrite IndelDistance_rec_nil_r. len_simpl. lia.
  - intros x y s t IH1 IH2 IH3. rewrite IndelDistance_rec_cons.
    len_simpl. destruct (x =? y); lia.
Qed.

(** The distance and the sum of the lengths have the same parity: every
    character is deleted, inserted, or matched with one of the other string. *)
Lemma IndelDistance_rec_parity (s t : gostring) :
  ∃ common, 0 ≤ common ∧ IndelDistance_rec s t + 2 * common = len s + len t.
Proof.
  revert s t. apply distance_ind.
  - intros t. exists 0. rewrite IndelDistance_rec_nil_l. len_simpl. lia.
  - intros s. exists 0. rewrite IndelDistance_rec_nil_r. len_simpl. lia.
  - intros x y s t (k1 & ? & IH1) (k2 & ? & IH2) (k3 & ? & IH3).
    rewrite IndelDistance_rec_cons. destruct (x =? y).
    + exists (k1 + 1). len_simpl. lia.
    + destruct (Z.min_spec (1 + IndelDistance_rec s (y :: t))
                  (1 + IndelDistance_rec (x :: s) t)) as [[_ ->]|[_ ->]].
      * exists k3. len_simpl. lia.
      * exists k2. len_simpl. lia.
Qed.

Lemma IndelDistance_rec_zero (s t : gostring) : IndelDistance_rec s t = 0 ↔ s = t.
Proof.
  revert s t. apply distance_ind.
  - intros t. rewrite IndelDistance_rec_nil_l. destruct t; [done|].
    len_simpl. split; [lia|done].
  - intros s. rewrite IndelDistance_rec_nil_r. destruct s; [done|].
    len_simpl. split; [lia|done].
  - intros x y s t IH1 IH2 IH3. rewrite IndelDistance_rec_cons.
    pose proof (IndelDistance_rec_bounds (x :: s) t).
    pose proof (IndelDistance_rec_bounds s (y :: t)).
    destruct (Z.eqb_spec x y) as [->|Hne].
    + rewrite IH1. split; [by intros ->|by intros [= ->]].
    + split; [lia|]. by intros [= -> ->].
Qed.

Lemma IndelDistance_rec_triangle (n : nat) :
  ∀ a b c : gostring, (length a + length b + length c ≤ n)%nat →
    IndelDistance_rec a c ≤ IndelDistance_rec a b + IndelDistance_rec b c.
Proof.
  induction n as [|n IH]; intros a b c Hn.
  { destruct a, b, c; simpl in Hn; try lia. by vm_compute. }
  destruct a as [|x a].
  { rewrite !IndelDistance_rec_nil_l.
    pose proof (IndelDistance_rec_length_diff b c). lia. }
  destruct c as [|z c].
  { rewrite !IndelDistance_rec_nil_r.
    pose proof (IndelDistance_rec_length_diff (x :: a) b). lia. }
  destruct b as [|y b].
  { rewrite IndelDistance_rec_nil_l, IndelDistance_rec_nil_r.
    pose proof (IndelDistance_rec_bounds (x :: a) (z :: c)). len_simpl. lia. }
  simpl in Hn.
  pose proof (IndelDistance_rec_cons_l (length a + length (z :: c)) x a (z :: c)
                ltac:(done)) as [Hd _].
  pose proof (IndelDistance_rec_cons_r z (x :: a) c) as [Hi _].
  pose proof (IH a (y :: b) (z :: c) ltac:(simpl; lia)) as T1.
  pose proof (IH (x :: a) (y :: b) c ltac:(simpl; lia)) as T2.
  pose proof (IH (x :: a) b (z :: c) ltac:(simpl; lia)) as T3.
  pose proof (IH (x :: a) b c ltac:(simpl; lia)) as T4.
  pose proof (IH a b (z :: c) ltac:(simpl; lia)) as T5.
  pose proof (IH a b c ltac:(simpl; lia)) as T6.
  destruct (IndelDistance_rec_cons_cases x y a b) as [[Hxy HA]|[Hxy [HA|HA]]];
    destruct (IndelDistance_rec_cons_cases y z b c) as [[Hyz HB]|[Hyz [HB|HB]]];
    destruct (IndelDistance_rec_cons_cases x z a c) as [[Hxz HC]|[Hxz [HC|HC]]];
    lia.
Qed.

(** Strings with no character in common. *)
Lemma disjoint_tail_l (x : Z) (s t : gostring) : disjoint (x :: s) t → disjoint s t.
Proof. intros H c Hc. apply H. by right. Qed.

Lemma disjoint_tail_r (y : Z) (s t : gostring) : disjoint s (y :: t) → disjoint s t.
Proof. intros H c Hc Hin. apply (H c Hc). by right. Qed.

Lemma disjoint_heads (x y : Z) (s t : gostring) : disjoint (x :: s) (y :: t) → x ≠ y.
Proof. intros H ->. apply (H y); by left. Qed.

Lemma IndelDistance_rec_disjoint (s t : gostring) :
  disjoint s t → IndelDistance_rec s t = len s + len t.
Proof.
  revert s t. apply (distance_ind (λ s t, disjoint s t → _)).
  - intros t _. rewrite IndelDistance_rec_nil_l. len_simpl. lia.
  - intros s _. rewrite IndelDistance_rec_nil_r. len_simpl. lia.
  - intros x y s t IH1 IH2 IH3 Hd. rewrite IndelDistance_rec_cons.
    rewrite (proj2 (Z.eqb_neq x y)) by by eapply disjoint_heads.
    rewrite IH2 by by eapply disjoint_tail_r.
    rewrite IH3 by by eapply disjoint_tail_l.
    len_simpl. lia.
Qed.

Lemma RecursiveLevenshtein_disjoint (s t : gostring) :
  disjoint s t → RecursiveLevenshtein s t = Z.max (len s) (len t).
Proof.
  revert s t. apply (distance_ind (λ s t, disjoint s t → _)).
  - intros t _. rewrite RecursiveLevenshtein_nil_l. len_simpl. lia.
  - intros s _. rewrite RecursiveLevenshtein_nil_r. len_simpl. lia.
  - intros x y s t IH1 IH2 IH3 Hd. rewrite RecursiveLevenshtein_cons.
    rewrite (proj2 (Z.eqb_neq x y)) by by eapply disjoint_heads.
    rewrite IH1 by by eapply disjoint_tail_l, disjoint_tail_r.
    rewrite IH2 by by eapply disjoint_tail_r.
    rewrite IH3 by by eapply disjoint_tail_l.
    len_simpl. lia.
Qed.

(** Substitution counts once for Levenshtein and twice for Indel. *)
Lemma RecursiveLevenshtein_le_indel (s t : gostring) :
  RecursiveLevenshtein s t ≤ IndelDistance_rec s t ∧
  IndelDistance_rec s t ≤ 2 * RecursiveLevenshtein s t.
Proof.
  revert s t. apply distance_ind.
  - intros t. rewrite RecursiveLevenshtein_nil_l, IndelDistance_rec_nil_l.
    len_simpl. lia.
  - intros s. rewrite RecursiveLevenshtein_nil_r, IndelDistance_rec_nil_r.
    len_simpl. lia.
  - intros x y s t IH1 IH2 IH3.
    rewrite RecursiveLevenshtein_cons, IndelDistance_rec_cons.
    pose proof (IndelDistance_rec_cons_r y s t) as [Hr _].
    destruct (x =? y); lia.
Qed.

(** ** The Damerau-Levenshtein recurrence *)

Lemma damerau_reference_length_diff (n : nat) :
  ∀ a b : list Z, (length a + length b ≤ n)%nat →
    len a - len b ≤ damerau_reference a b ∧ len b - len a ≤ damerau_reference a b.
Proof.
  induction n as [|n IH]; intros a b Hn.
  { destruct a, b; simpl in Hn; try lia. by vm_compute. }
  rewrite (damerau_reference_eq a b).
  destruct a as [|a0 a1], b as [|b0 b1]; try (len_simpl; lia).
  simpl in Hn.
  pose proof (IH a1 b1 ltac:(lia)).
  pose proof (IH (a0 :: a1) b1 ltac:(simpl; lia)).
  pose proof (IH a1 (b0 :: b1) ltac:(simpl; lia)).
  destruct (a0 =? b0); [len_simpl; lia|]. cbv zeta.
  destruct a1 as [|a1h a2]; [len_simpl; lia|].
  destruct b1 as [|b1h b2]; [len_simpl; lia|].
  pose proof (IH a2 b2 ltac:(simpl in Hn; lia)).
  destruct ((a0 =? b1h) && (a1h =? b0)); len_simpl; lia.
Qed.

Lemma damerau_reference_nonneg (a b : list Z) : 0 ≤ damerau_reference a b.
Proof.
  pose proof (damerau_reference_length_diff (length a + length b) a b ltac:(done)).
  lia.
Qed.

Lemma damerau_reference_zero (n : nat) :
  ∀ a b : list Z, (length a + length b ≤ n)%nat →
    damerau_reference a b = 0 ↔ a = b.
Proof.
  induction n as [|n IH]; intros a b Hn.
  { destruct a, b; simpl in Hn; try lia. done. }
  rewrite (damerau_reference_eq a b).
  destruct a as [|a0 a1], b as [|b0 b1].
  - done.
  - len_simpl. split; [lia|done].
  - len_simpl. split; [lia|done].
  - simpl in Hn. destruct (Z.eqb_spec a0 b0) as [->|Hne].
    + rewrite IH by lia. split; [by intros ->|by intros [= ->]].
    + cbv zeta.
      pose proof (damerau_reference_nonneg (a0 :: a1) b1).
      pose proof (damerau_reference_nonneg a1 (b0 :: b1)).
      pose proof (damerau_reference_nonneg a1 b1).
      split; [|by intros [= -> ->]].
      destruct a1 as [|a1h a2]; [lia|]. destruct b1 as [|b1h b2]; [lia|].
      pose proof (damerau_reference_nonneg a2 b2).
      destruct ((a0 =? b1h) && (a1h =? b0)); lia.
Qed.

(** Two strings that differ by a swap of their first two characters. *)
Lemma damerau_reference_swap (x y : Z) (s : list Z) :
  x ≠ y → damerau_reference (x :: y :: s) (y :: x :: s) = 1.
Proof.
  intros Hxy.
  assert (damerau_reference (x :: y :: s) (y :: x :: s) ≠ 0) as Hne.
  { rewrite (damerau_reference_zero (length (x :: y :: s) + length (y :: x :: s)))
      by done. by intros [= -> _]. }
  pose proof (damerau_reference_nonneg (x :: y :: s) (y :: x :: s)) as Hge.
  assert (damerau_reference s s = 0) as Hss
    by by apply (damerau_reference_zero (length s + length s)).
  revert Hne Hge. rewrite (damerau_reference_eq (x :: y :: s)).
  rewrite (proj2 (Z.eqb_neq x y) Hxy), !Z.eqb_refl, Hss. simpl. lia.
Qed.

(** On equal arguments the closure walks the diagonal and meets no cached
    key, whatever the strings hold. *)
Lemma calculateDamerauLevenshteinDistance_diagonal (s : gostring)
    (cache : gmap gostring Z) :
  (∀ k v, cache !! k = Some v → (2 * length s + 1 < length k)%nat) →
  (calculateDamerauLevenshteinDistance s s cache).1 = 0.
Proof.
  revert cache. induction s as [|x s IH]; intros cache Hcache;
    rewrite calculateDamerauLevenshteinDistance_eq; cbv zeta.
  - destruct (cache !! ([] ++ separator :: [])) as [v|] eqn:Hlook; [|done].
    apply Hcache in Hlook. simpl in Hlook. lia.
  - destruct (cache !! ((x :: s) ++ separator :: x :: s)) as [v|] eqn:Hlook.
    { apply Hcache in Hlook. rewrite length_app in Hlook. simpl in Hlook. lia. }
    rewrite Z.eqb_refl.
    specialize (IH cache). destruct (memo s s cache) as [v c]. simpl in *.
    apply IH. intros k w Hk. apply Hcache in Hk. simpl in Hk. lia.
Qed.

(** ** The selector: maximality and panics *)

Lemma SFltb_irrefl (x : spec_float) : SFltb x x = false.
Proof.
  unfold SFltb. destruct x as [s|s| |s m e]; simpl; try done.
  - by destruct s.
  - destruct s; rewrite Z.compare_refl, Pos.compare_cont_refl; done.
Qed.

Lemma SFleb_ltb_trans (x y z : spec_float) :
  SFleb x y = true → SFltb y z = true → SFltb x z = true.
Proof.
  unfold SFleb, SFltb.
  destruct x as [sx|sx| |sx mx ex], y as [sy|sy| |sy my ey], z as [sz|sz| |sz mz ez];
    simpl; try discriminate; try done;
    repeat match goal with b : bool |- _ => destruct b end;
    simpl; try discriminate; try done.
  all: rewrite ?Pos.compare_cont_spec; simpl.
  all: destruct (Z.compare_spec ex ey), (Z.compare_spec ey ez), (Z.compare_spec ex ez);
    simpl; try discriminate; try done; try lia; subst.
  all: destruct (Pos.compare_spec mx my), (Pos.compare_spec my mz),
         (Pos.compare_spec mx mz);
    simpl; try discriminate; try done; try lia.
Qed.

Section Maximum.
Variable inputString : gostring.
Variable algorithm : SimilarityAlgorithm.

Lemma suggest_step_dominated (seen : list gostring) st c st' :
  dominated inputString algorithm seen st → suggest_step inputString algorithm st c = Some st' →
  dominated inputString algorithm (seen ++ [c]) st'.
Proof.
  unfold suggest_step. intros Hdom Hstep.
  destruct (algorithm inputString c) as [sc|] eqn:Hsc; simpl in Hstep; [|done].
  injection Hstep as <-. intros c' Hc'.
  apply elem_of_app in Hc' as [Hc'|Hc'].
  - destruct (Hdom c' Hc') as (sc' & Hsc' & Hle). exists sc'. split; [done|].
    destruct (gt sc st.1) eqn:Hgt; [|done]. simpl.
    destruct (gt sc' sc) eqn:Hgt'; [|done].
    unfold gt in *. by rewrite (SFltb_trans _ _ _ Hgt Hgt') in Hle.
  - apply list_elem_of_singleton in Hc' as ->. exists sc. split; [done|].
    destruct (gt sc st.1) eqn:Hgt; [|done]. apply SFltb_irrefl.
Qed.

Lemma suggest_loop_dominated (xs seen : list gostring) st st' :
  dominated inputString algorithm seen st → suggest_loop inputString algorithm xs st = Some st' →
  dominated inputString algorithm (seen ++ xs) st'.
Proof.
  revert seen st. induction xs as [|x xs IH]; intros seen st Hdom Hloop; simpl in Hloop.
  { injection Hloop as <-. by rewrite app_nil_r. }
  destruct (suggest_step inputString algorithm st x) as [st1|] eqn:Hst;
    simpl in Hloop; [|done].
  rewrite (assoc_L (++) seen [x] xs : seen ++ x :: xs = (seen ++ [x]) ++ xs).
  eapply IH; [|done]. by eapply suggest_step_dominated.
Qed.

Lemma suggest_loop_is_Some (xs : list gostring) st :
  is_Some (suggest_loop inputString algorithm xs st) ↔
  Forall (λ c, is_Some (algorithm inputString c)) xs.
Proof.
  revert st. induction xs as [|x xs IH]; intros st; simpl.
  { split; [by constructor|by eexists]. }
  unfold suggest_step. rewrite Forall_cons.
  destruct (algorithm inputString x) as [sc|]; simpl.
  - rewrite IH. split; [by split|by intros [_ ?]].
  - split; [by intros [? ?]|by intros [[? ?] _]].
Qed.
End Maximum.

Lemma SuggestWord_is_Some inputString validStrings algorithm :
  is_Some (SuggestWord inputString validStrings algorithm) ↔
  Forall (λ c, is_Some (algorithm inputString c)) validStrings.
Proof.
  rewrite <- (suggest_loop_is_Some inputString algorithm validStrings (zero, [])).
  unfold SuggestWord.
  destruct (suggest_loop inputString algorithm validStrings (zero, []));
    simpl; split; intros [? ?]; done || by eexists.
Qed.

Lemma SuggestWord_dominated inputString validStrings algorithm r :
  SuggestWord inputString validStrings algorithm = Some r →
  dominated inputString algorithm validStrings (Likelihood r, Word r).
Proof.
  unfold SuggestWord. intros H.
  destruct (suggest_loop inputString algorithm validStrings (zero, []))
    as [st|] eqn:Hloop; simpl in H; [|done].
  injection H as <-. simpl.
  apply (suggest_loop_dominated inputString algorithm validStrings [] (zero, []) st);
    [|done].
  intros c Hc. by apply elem_of_nil in Hc.
Qed.

Lemma SuggestWord_selected inputString validStrings algorithm r :
  SuggestWord inputString validStrings algorithm = Some r →
  selected inputString algorithm validStrings (Likelihood r, Word r).
Proof.
  unfold SuggestWord. intros H.
  destruct (suggest_loop inputString algorithm validStrings (zero, []))
    as [st|] eqn:Hloop; simpl in H; [|done].
  injection H as <-. simpl.
  assert (Forall (λ c, is_Some (algorithm inputString c)) validStrings) as Htot.
  { apply (suggest_loop_is_Some inputString algorithm validStrings (zero, [])).
    by rewrite Hloop. }
  destruct (suggest_loop_selected inputString algorithm validStrings [] (zero, []))
    as (st' & Hst' & Hsel); [by left|done|].
  rewrite Hloop in Hst'. injection Hst' as <-. by destruct st.
Qed.

(** Scanning again candidates already seen changes nothing. *)
Lemma suggest_loop_rescan inputString algorithm (xs ys : list gostring) :
  ys ⊆ xs →
  suggest_loop inputString algorithm (xs ++ ys) (zero, []) =
  suggest_loop inputString algorithm xs (zero, []).
Proof.
  intros Hsub. rewrite suggest_loop_app.
  destruct (suggest_loop inputString algorithm xs (zero, [])) as [st|] eqn:Hloop;
    simpl; [|done].
  apply suggest_loop_keep. apply Forall_forall. intros c Hc.
  apply (suggest_loop_dominated inputString algorithm xs [] (zero, []) st);
    [|done|by apply Hsub].
  intros c' Hc'. by apply elem_of_nil in Hc'.
Qed.

Lemma SuggestWord_empty_iff inputString validStrings algorithm :
  SuggestWord inputString validStrings algorithm
    = Some {| Likelihood := zero; Word := [] |} ↔
  Forall (λ c, ∃ sc, algorithm inputString c = Some sc ∧ gt sc zero = false)
    validStrings.
Proof.
  split.
  - intros H. apply Forall_forall. intros c Hc.
    by apply (SuggestWord_dominated _ _ _ _ H).
  - intros H. unfold SuggestWord. by rewrite suggest_loop_keep.
Qed.

(** ** [JaroSimilarity] without a common character *)

Lemma for_loop_fixed {St : Type} (body : nat → St → option St) (s : St)
    (count lo : nat) :
  (∀ i, (lo ≤ i < lo + count)%nat → body i s = Some s) →
  for_loop lo count body s = Some s.
Proof.
  revert lo. induction count as [|k IH]; intros lo H; simpl; [done|].
  rewrite H by lia. simpl. apply IH. intros i Hi. apply H. lia.
Qed.

(** The inner loop finds nothing when the character is not in the target. *)
Lemma find_match_absent (inputString targetString : gostring) (i : Z)
    (targetStringMatrix : list Z) (ci : byte) (count : nat) (j : Z) :
  idx inputString i = Some ci → ci ∉ targetString →
  (count = 0%nat ∨ (0 ≤ j ∧ j + Z.of_nat count ≤ len targetString)) →
  find_match count j inputString targetString i targetStringMatrix = Some None.
Proof.
  intros Hci Hnot. revert j. induction count as [|k IH]; intros j Hj; simpl; [done|].
  destruct Hj as [|[Hj0 Hj1]]; [done|]. rewrite Hci. simpl.
  destruct (idx_Some targetString j) as (tj & -> & Htj); [lia|]. simpl.
  destruct (Z.eqb_spec ci tj) as [->|_].
  - destruct Hnot. by eapply list_elem_of_lookup_2.
  - apply IH. right. lia.
Qed.

Lemma match_step_absent (inputString targetString : gostring) (i : nat)
    (st : Z * list Z * list Z) :
  disjoint inputString targetString → (i < length inputString)%nat →
  match_step inputString targetString i st = Some st.
Proof.
  intros Hdis Hi. destruct st as [[matches iM] tM]. unfold match_step.
  destruct (idx_Some inputString (Z.of_nat i)) as (ci & Hci & Hlook);
    [unfold len; lia|].
  rewrite Nat2Z.id in Hlook.
  rewrite (find_match_absent inputString targetString (Z.of_nat i) tM ci); try done.
  - apply Hdis. by eapply list_elem_of_lookup_2.
  - set (mmd := max_match_distance _ _).
    destruct (Z.le_gt_cases
                (Z.min (len targetString) (Z.of_nat i + mmd + 1))
                (Z.max 0 (Z.of_nat i - mmd))) as [Hle|Hgt]; [left; lia|right; lia].
Qed.

Lemma JaroSimilarity_disjoint (inputString targetString : gostring) :
  disjoint inputString targetString →
  inputString ≠ [] ∨ targetString ≠ [] →
  JaroSimilarity inputString targetString = Some zero.
Proof.
  intros Hdis Hne. unfold JaroSimilarity, eqstr.
  rewrite bool_decide_eq_false_2.
  - rewrite for_loop_fixed; [done|]. intros i Hi.
    apply match_step_absent; [done|lia].
  - intros ->. destruct targetString as [|c s]; [by destruct Hne|].
    apply (Hdis c); by left.
Qed.

(** ** [JaroSimilarity]: when the matching loop finds a match *)

Lemma marked_zero (l : list Z) (j : nat) (m : Z) :
  marked l = 0%nat → l !! j = Some m → m = 0.
Proof.
  revert j. induction l as [|x l IH]; intros j; [done|].
  rewrite marked_cons. intros Hz Hj. destruct j as [|j]; simpl in Hj.
  - injection Hj as ->. by case_decide.
  - apply (IH j); [|done]. case_decide; lia.
Qed.

(** The inner loop stops at the first free position of its range that holds
    the character, and finds none only when there is none. *)
Lemma find_match_first (inputString targetString : gostring) (i : Z)
    (targetStringMatrix : list Z) (ci : byte) (count : nat) (j : Z) :
  idx inputString i = Some ci →
  length targetStringMatrix = length targetString →
  (count = 0%nat ∨ (0 ≤ j ∧ j + Z.of_nat count ≤ len targetString)) →
  (find_match count j inputString targetString i targetStringMatrix = Some None ∧
   ∀ j' : nat, j ≤ Z.of_nat j' < j + Z.of_nat count →
     targetString !! j' = Some ci → targetStringMatrix !! j' = Some 0 → False) ∨
  (∃ j' : nat,
     find_match count j inputString targetString i targetStringMatrix
       = Some (Some (Z.of_nat j')) ∧
     j ≤ Z.of_nat j' < j + Z.of_nat count ∧
     targetString !! j' = Some ci ∧ targetStringMatrix !! j' = Some 0).
Proof.
  intros Hci Hlen. revert j. induction count as [|k IH]; intros j Hj; simpl.
  { left. split; [done|]. intros j' Hj'. lia. }
  destruct Hj as [|[Hj0 Hj1]]; [done|]. rewrite Hci. simpl.
  destruct (idx_Some targetString j) as (tj & -> & Htj); [lia|]. simpl.
  assert (k = 0%nat ∨ 0 ≤ j + 1 ∧ j + 1 + Z.of_nat k ≤ len targetString) as Hnext
    by (right; lia).
  destruct (idx_Some targetStringMatrix j) as (mj & Hmj' & Hmj);
    [unfold len in *; lia|].
  assert (∀ j' : nat, Z.of_nat j' = j → Z.to_nat j = j') as Hnat by lia.
  destruct (Z.eqb_spec ci tj) as [<-|Hne].
  - rewrite Hmj'. simpl. destruct (Z.eqb_spec mj 0) as [->|Hm].
    + right. exists (Z.to_nat j). rewrite Z2Nat.id by lia.
      split; [done|]. split; [lia|done].
    + destruct (IH (j + 1) Hnext) as [[-> Hall]|(j' & -> & Hr & Hb & Hm')].
      * left. split; [done|]. intros j' Hr Hb Hm'.
        destruct (decide (Z.of_nat j' = j)) as [Heq|Hneq].
        -- rewrite (Hnat _ Heq) in Hmj. rewrite Hmj in Hm'. by injection Hm'.
        -- apply (Hall j'); [lia|done..].
      * right. exists j'. split; [done|]. split; [lia|done].
  - destruct (IH (j + 1) Hnext) as [[-> Hall]|(j' & -> & Hr & Hb & Hm')].
    + left. split; [done|]. intros j' Hr Hb Hm'.
      destruct (decide (Z.of_nat j' = j)) as [Heq|Hneq].
      * rewrite (Hnat _ Heq) in Htj. rewrite Htj in Hb. by injection Hb.
      * apply (Hall j'); [lia|done..].
    + right. exists j'. split; [done|]. split; [lia|done].
Qed.

Lemma window_match_mono (inputString targetString : gostring) (i k : nat) :
  (i ≤ k)%nat → window_match inputString targetString i →
  window_match inputString targetString k.
Proof.
  intros Hik (i' & j & c & Hi' & H). exists i', j, c. split; [lia|done].
Qed.

Lemma match_step_window (inputString targetString : gostring) (i : nat)
    (st st' : Z * list Z * list Z) :
  (i < length inputString)%nat →
  matching (length inputString) (length targetString) i st →
  window_inv inputString targetString i st →
  match_step inputString targetString i st = Some st' →
  window_inv inputString targetString (S i) st'.
Proof.
  destruct st as [[matches iM] tM].
  intros Hi (HliM & HltM & Hdrop & Hbin & Hm & Heq) Hinv. unfold match_step.
  set (mmd := max_match_distance (len inputString) (len targetString)).
  set (start := Z.max 0 (Z.of_nat i - mmd)).
  set (end_ := Z.min (len targetString) (Z.of_nat i + mmd + 1)).
  destruct (idx_Some inputString (Z.of_nat i)) as (ci & Hci & Hlook);
    [unfold len; lia|].
  rewrite Nat2Z.id in Hlook.
  destruct (find_match_first inputString targetString (Z.of_nat i) tM ci
              (Z.to_nat (end_ - start)) start Hci HltM)
    as [[-> Hall]|(j & -> & Hj & Hb & Hfree)].
  { subst start end_. destruct (decide
      (Z.min (len targetString) (Z.of_nat i + mmd + 1)
       ≤ Z.max 0 (Z.of_nat i - mmd))); [left|right]; lia. }
  - simpl. intros [= <-]. unfold window_inv in *. simpl in *.
    destruct Hinv as [[-> Hno]|[Hpos Hwm]].
    + left. split; [done|]. intros (i' & j & c & Hi' & Ha & Hb & Hnear).
      destruct (decide (i' = i)) as [->|Hneq].
      * rewrite Hlook in Ha. injection Ha as <-.
        apply lookup_lt_Some in Hb as Hjlen.
        destruct (lookup_lt_is_Some_2 tM j) as [m Hmj]; [lia|].
        assert (m = 0) as -> by (apply (marked_zero tM j); [lia|done]).
        apply (Hall j); [|done..].
        fold mmd in Hnear. subst start end_. unfold len. lia.
      * apply Hno. exists i', j, c. split; [lia|done].
    + right. split; [done|]. apply (window_match_mono _ _ i); [lia|done].
  - simpl. destruct (upd iM (Z.of_nat i) 1) as [iM'|]; simpl; [|done].
    destruct (upd tM (Z.of_nat j) 1) as [tM'|]; simpl; [|done].
    intros [= <-]. right. simpl. split; [lia|].
    exists i, j, ci. split; [lia|]. split; [done|]. split; [done|].
    fold mmd. subst start end_. lia.
Qed.

(** With no character in any window the result is 0; otherwise it is the
    expression over at least one match. *)
Lemma JaroSimilarity_window (inputString targetString : gostring) :
  inputString ≠ targetString →
  (¬ common_in_window inputString targetString →
     JaroSimilarity inputString targetString = Some zero) ∧
  (common_in_window inputString targetString →
     ∃ matches transpositions,
       1 ≤ matches ≤ Z.min (len inputString) (len targetString) ∧
       0 ≤ transpositions ∧ 2 * transpositions ≤ matches ∧
       JaroSimilarity inputString targetString =
         Some (jaro_value matches transpositions
                 (len inputString) (len targetString))).
Proof.
  intros Hne. unfold JaroSimilarity, eqstr, common_in_window.
  rewrite bool_decide_eq_false_2 by done.
  destruct (for_loop_invariant
              (λ i st, matching (length inputString) (length targetString) i st ∧
                       window_inv inputString targetString i st)
              (match_step inputString targetString) (length inputString) 0
              (0, replicate (length inputString) 0, replicate (length targetString) 0))
    as ([[matches iM] tM] & -> & (HliM & HltM & _ & Hbin & Hm & Heq) & Hinv).
  - split.
    + repeat split.
      * by rewrite length_replicate.
      * by rewrite length_replicate.
      * by rewrite drop_0, Nat.sub_0_r.
      * apply Forall_replicate. by left.
      * by rewrite marked_replicate.
      * by rewrite !marked_replicate.
    + left. split; [done|]. intros (i & j & c & Hi & _). lia.
  - intros i st Hi [Hst Hinv].
    destruct (match_step_spec inputString targetString i st) as (st' & Hstep & Hst');
      [lia|done|].
    exists st'. split; [done|]. split; [done|].
    by apply (match_step_window inputString targetString i st); [lia|..].
  - simpl. unfold window_inv in Hinv. simpl in Hinv.
    pose proof (marked_le_length iM). pose proof (marked_le_length tM).
    destruct (calculateTranspositions_spec inputString targetString iM tM)
      as (t & Ht & Ht0 & Ht2); [done..|].
    split.
    + intros Hno. destruct Hinv as [[-> _]|[_ Hwm]]; [done|by destruct Hno].
    + intros Hwm. destruct Hinv as [[_ Hno]|[Hpos _]]; [by destruct Hno|].
      exists matches, t. split; [unfold len; lia|]. split; [done|]. split; [lia|].
      rewrite (proj2 (Z.ltb_ge matches 1)) by lia. by rewrite Ht.
Qed.

(** ** Cutting the word list at CR LF *)

Lemma Split_crlf_cons (c : byte) (rest : gostring) :
  Split_crlf (c :: rest) =
    match rest with
    | d :: rest' =>
        if (c =? 13) && (d =? 10) then [] :: Split_crlf rest'
        else push c (Split_crlf rest)
    | [] => [[c]]
    end.
Proof. by destruct rest. Qed.

Lemma Split_crlf_nonempty (s : gostring) : Split_crlf s ≠ [].
Proof.
  induction s as [|c rest IH]; [done|]. rewrite Split_crlf_cons.
  destruct rest as [|d rest']; [done|].
  destruct ((c =? 13) && (d =? 10)); [done|].
  by destruct (Split_crlf (d :: rest')).
Qed.

Lemma Join_crlf_push (c : byte) (ps : list gostring) :
  ps ≠ [] → Join_crlf (push c ps) = c :: Join_crlf ps.
Proof. destruct ps as [|p [|q ps]]; done. Qed.

Lemma Join_crlf_cons (p : gostring) (ps : list gostring) :
  ps ≠ [] → Join_crlf (p :: ps) = p ++ crlf ++ Join_crlf ps.
Proof. by destruct ps. Qed.

Lemma Join_Split_crlf (n : nat) :
  ∀ s, (length s ≤ n)%nat → Join_crlf (Split_crlf s) = s.
Proof.
  induction n as [|n IH]; intros s Hn.
  { destruct s; [done|simpl in Hn; lia]. }
  destruct s as [|c rest]; [done|]. rewrite Split_crlf_cons.
  destruct rest as [|d rest']; [done|]. simpl in Hn.
  destruct ((c =? 13) && (d =? 10)) eqn:Hsep.
  - apply andb_true_iff in Hsep as [->%Z.eqb_eq ->%Z.eqb_eq].
    rewrite Join_crlf_cons by apply Split_crlf_nonempty.
    by rewrite IH by lia.
  - rewrite Join_crlf_push by apply Split_crlf_nonempty.
    by rewrite IH by (simpl; lia).
Qed.

Lemma contains_crlf_cons (c : byte) (s : gostring) :
  contains_crlf (c :: s) ↔
  (c = 13 ∧ ∃ rest, s = 10 :: rest) ∨ contains_crlf s.
Proof.
  split.
  - intros ([|c' u] & v & H); simpl in H.
    + injection H as -> ->. left. eauto.
    + injection H as <- ->. right. by exists u, v.
  - intros [(-> & rest & ->)|(u & v & ->)].
    + by exists [], rest.
    + by exists (c :: u), v.
Qed.

Lemma contains_crlf_nil : ¬ contains_crlf [].
Proof. intros ([|c u] & v & H); done. Qed.

Lemma Split_crlf_pieces (n : nat) :
  ∀ s, (length s ≤ n)%nat → Forall (λ p, ¬ contains_crlf p) (Split_crlf s).
Proof.
  induction n as [|n IH]; intros s Hn.
  { destruct s; [|simpl in Hn; lia]. repeat constructor. apply contains_crlf_nil. }
  destruct s as [|c rest].
  { repeat constructor. apply contains_crlf_nil. }
  rewrite Split_crlf_cons. destruct rest as [|d rest'].
  { repeat constructor. rewrite contains_crlf_cons.
    intros [(_ & ? & ?)|H]; [done|by apply contains_crlf_nil in H]. }
  simpl in Hn.
  destruct ((c =? 13) && (d =? 10)) eqn:Hsep.
  - constructor; [apply contains_crlf_nil|]. apply IH. lia.
  - pose proof (IH (d :: rest') ltac:(simpl; lia)) as Hrest.
    assert (Join_crlf (Split_crlf (d :: rest')) = d :: rest') as Hjoin
      by (apply (Join_Split_crlf (S (length rest'))); done).
    destruct (Split_crlf (d :: rest')) as [|p ps] eqn:Hsplit; simpl.
    { by apply Split_crlf_nonempty in Hsplit. }
    apply Forall_cons in Hrest as [Hp Hps]. constructor; [|done].
    rewrite contains_crlf_cons. intros [(-> & tl & ->)|H]; [|done].
    destruct ps as [|q ps]; simpl in Hjoin.
    + injection Hjoin as <- _. done.
    + injection Hjoin as <- _. done.
Qed.

(** A content without carriage return is one piece. *)
Lemma Split_crlf_single (s : gostring) : 13 ∉ s → Split_crlf s = [s].
Proof.
  induction s as [|c rest IH]; [done|]. intros Hnot.
  apply not_elem_of_cons in Hnot as [Hc Hrest].
  rewrite Split_crlf_cons. destruct rest as [|d rest']; [done|].
  rewrite (proj2 (Z.eqb_neq c 13)) by done. simpl andb. cbv iota.
  by rewrite IH.
Qed.

Lemma Split_crlf_app (p s : gostring) :
  13 ∉ p → 10 ∉ p → Split_crlf (p ++ crlf ++ s) = p :: Split_crlf s.
Proof.
  induction p as [|c p IH]; intros H13 H10.
  { done. }
  apply not_elem_of_cons in H13 as [Hc H13].
  apply not_elem_of_cons in H10 as [Hc' H10].
  change ((c :: p) ++ crlf ++ s) with (c :: (p ++ crlf ++ s)).
  rewrite Split_crlf_cons.
  destruct (p ++ crlf ++ s) as [|d rest'] eqn:Heq.
  { by destruct p. }
  rewrite (proj2 (Z.eqb_neq c 13)) by done. simpl andb. cbv iota.
  by rewrite IH.
Qed.

Lemma Split_Join_crlf (pieces : list gostring) :
  pieces ≠ [] → Forall (λ p, (13 ∉ p) ∧ (10 ∉ p)) pieces →
  Split_crlf (Join_crlf pieces) = pieces.
Proof.
  intros Hne H. induction H as [|p ps [H13 H10] Hps IH]; [done|].
  destruct ps as [|q ps].
  - simpl. by apply Split_crlf_single.
  - rewrite Join_crlf_cons by done. rewrite Split_crlf_app by done.
    by rewrite IH.
Qed.

(** ** Similarities, common prefixes and swaps *)

Lemma add_comm (x y : float32) : add x y = add y x.
Proof.
  unfold add, SFadd.
  destruct x as [sx|sx| |sx mx ex], y as [sy|sy| |sy my ey]; try done.
  - by destruct sx, sy.
  - by destruct sx, sy.
  - by rewrite (Z.min_comm ex ey), Z.add_comm.
Qed.

Lemma CalculateSimilarity_sym (algorithm : DistanceAlgorithm) (a b : gostring) :
  algorithm a b = algorithm b a →
  CalculateSimilarity a b algorithm = CalculateSimilarity b a algorithm.
Proof.
  intros Hsym. unfold CalculateSimilarity, eqstr.
  case_bool_decide as Hab.
  - by rewrite bool_decide_eq_true_2.
  - rewrite bool_decide_eq_false_2 by done.
    by rewrite Hsym, (add_comm (of_int (len a))).
Qed.

Lemma CalculateSimilarity_is_Some (algorithm : DistanceAlgorithm) (a b : gostring) :
  is_Some (algorithm a b) → is_Some (CalculateSimilarity a b algorithm).
Proof.
  intros [d Hd]. unfold CalculateSimilarity. rewrite Hd. simpl.
  by destruct (eqstr a b).
Qed.

Lemma RecursiveLevenshtein_prefix (p s t : list Z) :
  RecursiveLevenshtein (p ++ s) (p ++ t) = RecursiveLevenshtein s t.
Proof.
  induction p as [|c p IH]; [done|]. simpl app.
  by rewrite RecursiveLevenshtein_cons, Z.eqb_refl.
Qed.

Lemma damerau_reference_prefix (p s t : list Z) :
  damerau_reference (p ++ s) (p ++ t) = damerau_reference s t.
Proof.
  induction p as [|c p IH]; [done|]. simpl app.
  by rewrite damerau_reference_eq, Z.eqb_refl.
Qed.

Lemma RecursiveLevenshtein_swap (x y : Z) (s : list Z) :
  x ≠ y → RecursiveLevenshtein (x :: y :: s) (y :: x :: s) = 2.
Proof.
  intros Hxy. rewrite RecursiveLevenshtein_cons.
  rewrite (proj2 (Z.eqb_neq x y) Hxy).
  rewrite (RecursiveLevenshtein_cons x x), (RecursiveLevenshtein_cons y y), !Z.eqb_refl.
  rewrite (RecursiveLevenshtein_cons y x), (proj2 (Z.eqb_neq y x)) by done.
  pose proof (RecursiveLevenshtein_length_diff (y :: s) s) as [H1 _].
  pose proof (RecursiveLevenshtein_length_diff s (x :: s)) as [_ H2].
  assert (RecursiveLevenshtein s s = 0) as -> by by apply RecursiveLevenshtein_zero.
  len_simpl. lia.
Qed.
Lemma disjoint_Forall (s t : gostring) : Forall (λ c, c ∉ t) s → disjoint s t.
Proof. intros H c Hc. by apply (proj1 (Forall_forall _ _) H). Qed.

(** ** Rounding in the normalizer *)




(** ** What the functions guarantee *)

(** X1. [DynamicLevenshtein] never indexes out of range: on every pair of
    strings it returns, and what it returns is the value of the recurrence of
    [RecursiveLevenshtein] on the runes of its arguments. *)
Theorem DynamicLevenshtein_computes_recurrence (a b : gostring) :
  DynamicLevenshtein a b = Some (RecursiveLevenshtein (runes a) (runes b)) ∧
  LevenshteinDistance a b = Some (RecursiveLevenshtein (runes a) (runes b)).
Proof. split; apply DynamicLevenshtein_recursive. Qed.

(** X2. On strings of ASCII characters [LevenshteinDistance] and
    [RecursiveLevenshtein] agree. *)
Theorem Levenshtein_implementations_agree_ascii (a b : gostring) :
  Forall (λ c, 0 ≤ c ≤ 127) a → Forall (λ c, 0 ≤ c ≤ 127) b →
  LevenshteinDistance a b = Some (RecursiveLevenshtein a b).
Proof.
  intros Ha Hb. unfold LevenshteinDistance.
  by rewrite DynamicLevenshtein_recursive, (runes_ascii a Ha), (runes_ascii b Hb).
Qed.

Lemma Levenshtein_implementations_agree_ascii_witness :
  LevenshteinDistance [107; 105; 116; 116; 101; 110] [115; 105; 116; 116; 105; 110; 103]
  = Some (RecursiveLevenshtein [107; 105; 116; 116; 101; 110]
            [115; 105; 116; 116; 105; 110; 103]).
Proof.
  apply (Levenshtein_implementations_agree_ascii
           [107; 105; 116; 116; 101; 110] [115; 105; 116; 116; 105; 110; 103]);
    repeat (apply Forall_cons_2; [lia|]); apply Forall_nil_2.
Defined.

(** X3. [LevenshteinDistance] is a metric on rune sequences: it is symmetric,
    it is 0 exactly when the two strings decode to the same runes, and it
    satisfies the triangle inequality. *)
Theorem LevenshteinDistance_metric :
  (∀ a b, LevenshteinDistance a b = LevenshteinDistance b a) ∧
  (∀ a b, LevenshteinDistance a b = Some 0 ↔ runes a = runes b) ∧
  (∀ a b c, ∃ ab bc ac,
     LevenshteinDistance a b = Some ab ∧ LevenshteinDistance b c = Some bc ∧
     LevenshteinDistance a c = Some ac ∧ ac ≤ ab + bc).
Proof.
  unfold LevenshteinDistance. split; [|split].
  - intros a b. rewrite !DynamicLevenshtein_recursive.
    by rewrite RecursiveLevenshtein_sym.
  - intros a b. rewrite DynamicLevenshtein_recursive.
    rewrite <- RecursiveLevenshtein_zero. split; [by intros [= ->]|by intros ->].
  - intros a b c. eexists _, _, _.
    rewrite !DynamicLevenshtein_recursive. repeat split.
    by apply (RecursiveLevenshtein_triangle
                (length (runes a) + length (runes b) + length (runes c))).
Qed.

(** X4. [LevenshteinDistance] lies between the difference and the maximum of
    the numbers of runes of its arguments, which are at most their byte
    lengths. *)
Theorem LevenshteinDistance_range (a b : gostring) :
  ∃ d, LevenshteinDistance a b = Some d ∧
       Z.abs (len (runes a) - len (runes b)) ≤ d ∧
       d ≤ Z.max (len (runes a)) (len (runes b)) ∧
       d ≤ Z.max (len a) (len b).
Proof.
  eexists. split; [apply DynamicLevenshtein_recursive|].
  pose proof (RecursiveLevenshtein_length_diff (runes a) (runes b)).
  pose proof (RecursiveLevenshtein_bounds (runes a) (runes b)).
  pose proof (runes_length a). pose proof (runes_length b). lia.
Qed.

(** X5. [RecursiveLevenshtein] is a metric on byte strings, between the
    difference and the maximum of the two lengths. *)
Theorem RecursiveLevenshtein_metric :
  (∀ a b, RecursiveLevenshtein a b = RecursiveLevenshtein b a) ∧
  (∀ a b, RecursiveLevenshtein a b = 0 ↔ a = b) ∧
  (∀ a b c, RecursiveLevenshtein a c
              ≤ RecursiveLevenshtein a b + RecursiveLevenshtein b c) ∧
  (∀ a b, Z.abs (len a - len b) ≤ RecursiveLevenshtein a b ≤ Z.max (len a) (len b)).
Proof.
  split; [|split; [|split]].
  - apply RecursiveLevenshtein_sym.
  - apply RecursiveLevenshtein_zero.
  - intros a b c.
    by apply (RecursiveLevenshtein_triangle (length a + length b + length c)).
  - intros a b. pose proof (RecursiveLevenshtein_length_diff a b).
    pose proof (RecursiveLevenshtein_bounds a b). lia.
Qed.

(** X6. Two strings with no byte in common are at the largest distance
    [RecursiveLevenshtein] can give: the longer of the two lengths. *)
Theorem RecursiveLevenshtein_no_common_byte (a b : gostring) :
  disjoint a b → RecursiveLevenshtein a b = Z.max (len a) (len b).
Proof. apply RecursiveLevenshtein_disjoint. Qed.

Lemma RecursiveLevenshtein_no_common_byte_witness :
  RecursiveLevenshtein [97; 98; 99] [120; 121] = Z.max (len [97; 98; 99]) (len [120; 121]).
Proof.
  apply (RecursiveLevenshtein_no_common_byte [97; 98; 99] [120; 121]).
  apply disjoint_Forall. compute_done.
Defined.

(** X7. [IndelDistance] never panics and is a metric on byte strings. *)
Theorem IndelDistance_metric :
  (∀ a b, IndelDistance a b = IndelDistance b a) ∧
  (∀ a b, IndelDistance a b = Some 0 ↔ a = b) ∧
  (∀ a b c, ∃ ab bc ac,
     IndelDistance a b = Some ab ∧ IndelDistance b c = Some bc ∧
     IndelDistance a c = Some ac ∧ ac ≤ ab + bc).
Proof.
  unfold IndelDistance. split; [|split].
  - intros a b. by rewrite IndelDistance_rec_sym.
  - intros a b. rewrite <- IndelDistance_rec_zero.
    split; [by intros [= ->]|by intros ->].
  - intros a b c. eexists _, _, _. repeat split.
    by apply (IndelDistance_rec_triangle (length a + length b + length c)).
Qed.

(** X8. [IndelDistance] is the sum of the two lengths less twice the number
    of characters kept: it has the parity of the sum and lies between the
    difference and the sum of the lengths. *)
Theorem IndelDistance_range_parity (a b : gostring) :
  ∃ d common,
    IndelDistance a b = Some d ∧
    0 ≤ common ≤ Z.min (len a) (len b) ∧
    d = len a + len b - 2 * common ∧
    Z.abs (len a - len b) ≤ d ≤ len a + len b.
Proof.
  destruct (IndelDistance_rec_parity a b) as (common & Hc & Hsum).
  pose proof (IndelDistance_rec_length_diff a b).
  pose proof (IndelDistance_rec_bounds a b).
  exists (IndelDistance_rec a b), common. split; [done|]. lia.
Qed.

(** X9. Two strings with no byte in common are at [IndelDistance] the sum of
    their lengths. *)
Theorem IndelDistance_no_common_byte (a b : gostring) :
  disjoint a b → IndelDistance a b = Some (len a + len b).
Proof. intros H. unfold IndelDistance. by rewrite IndelDistance_rec_disjoint. Qed.

Lemma IndelDistance_no_common_byte_witness :
  IndelDistance [97; 98; 99] [120; 121] = Some (len [97; 98; 99] + len [120; 121]).
Proof.
  apply (IndelDistance_no_common_byte [97; 98; 99] [120; 121]).
  apply disjoint_Forall. compute_done.
Defined.

(** X10. On the same byte strings [IndelDistance] is at least
    [RecursiveLevenshtein] and at most twice as much. *)
Theorem IndelDistance_between_Levenshtein (a b : gostring) :
  ∃ indel, IndelDistance a b = Some indel ∧
    RecursiveLevenshtein a b ≤ indel ≤ 2 * RecursiveLevenshtein a b.
Proof. eexists. split; [done|]. apply RecursiveLevenshtein_le_indel. Qed.

(** X11. When the separator character is missing from one of the two
    strings, [DamerauLevenshtein] returns the value of the recurrence with the
    transposition case, as if nothing were cached. *)
Theorem DamerauLevenshtein_computes_recurrence (a b : gostring) :
  separator ∉ a ∨ separator ∉ b →
  DamerauLevenshtein a b = Some (damerau_reference a b).
Proof. apply DamerauLevenshtein_reference. Qed.

Lemma DamerauLevenshtein_computes_recurrence_witness :
  DamerauLevenshtein [99; 97; 124; 98] [97; 99; 98; 100]
  = Some (damerau_reference [99; 97; 124; 98] [97; 99; 98; 100]).
Proof.
  apply (DamerauLevenshtein_computes_recurrence [99; 97; 124; 98] [97; 99; 98; 100]).
  right. compute_done.
Defined.

(** X12. [DamerauLevenshtein] returns on every pair of strings, separator or
    not, a value between 0 and the sum of the two lengths. *)
Theorem DamerauLevenshtein_range (a b : gostring) :
  ∃ d, DamerauLevenshtein a b = Some d ∧ 0 ≤ d ≤ len a + len b.
Proof.
  eexists. split; [done|]. apply calculateDamerauLevenshteinDistance_bounds.
Qed.

(** X13. [DamerauLevenshtein] is symmetric when the separator character is
    missing from one of the two strings. *)
Theorem DamerauLevenshtein_symmetric_without_separator (a b : gostring) :
  separator ∉ a ∨ separator ∉ b →
  DamerauLevenshtein a b = DamerauLevenshtein b a.
Proof.
  intros Hsep. rewrite !DamerauLevenshtein_reference by tauto.
  by rewrite (damerau_reference_sym (length a + length b)).
Qed.

Lemma DamerauLevenshtein_symmetric_without_separator_witness :
  DamerauLevenshtein [99; 97; 124; 98] [97; 99; 98; 100]
  = DamerauLevenshtein [97; 99; 98; 100] [99; 97; 124; 98].
Proof.
  apply (DamerauLevenshtein_symmetric_without_separator
           [99; 97; 124; 98] [97; 99; 98; 100]).
  right. compute_done.
Defined.

(** X14. When the separator character is missing from one of the two
    strings, [DamerauLevenshtein] is at least the difference of the lengths,
    at most [RecursiveLevenshtein], and 0 exactly for equal strings. *)
Theorem DamerauLevenshtein_bounds_without_separator (a b : gostring) :
  separator ∉ a ∨ separator ∉ b →
  ∃ d, DamerauLevenshtein a b = Some d ∧
       Z.abs (len a - len b) ≤ d ∧ d ≤ RecursiveLevenshtein a b ∧
       (d = 0 ↔ a = b).
Proof.
  intros Hsep. exists (damerau_reference a b).
  split; [by apply DamerauLevenshtein_reference|].
  pose proof (damerau_reference_length_diff (length a + length b) a b ltac:(done)).
  pose proof (damerau_reference_le_levenshtein (length a + length b) a b ltac:(done)).
  split; [lia|]. split; [done|].
  by apply (damerau_reference_zero (length a + length b)).
Qed.

Lemma DamerauLevenshtein_bounds_without_separator_witness :
  ∃ d, DamerauLevenshtein [99; 97; 124; 98] [97; 99; 98; 100] = Some d ∧
       Z.abs (len [99; 97; 124; 98] - len [97; 99; 98; 100]) ≤ d ∧
       d ≤ RecursiveLevenshtein [99; 97; 124; 98] [97; 99; 98; 100] ∧
       (d = 0 ↔ [99; 97; 124; 98] = [97; 99; 98; 100]).
Proof.
  apply (DamerauLevenshtein_bounds_without_separator
           [99; 97; 124; 98] [97; 99; 98; 100]).
  right. compute_done.
Defined.

(** X15. [DamerauLevenshtein] of a string and itself is 0, whatever the
    string holds: along the diagonal no two calls share a cache key. *)
Theorem DamerauLevenshtein_same_string (s : gostring) :
  DamerauLevenshtein s s = Some 0.
Proof.
  unfold DamerauLevenshtein.
  rewrite calculateDamerauLevenshteinDistance_diagonal; [done|].
  intros k v Hk. by rewrite lookup_empty in Hk.
Qed.

(** X16. Swapping two adjacent, different characters of a string without
    separator gives a string at [DamerauLevenshtein] 1 of it, and at
    [RecursiveLevenshtein] 2. *)
Theorem DamerauLevenshtein_adjacent_swap (p s : gostring) (x y : byte) :
  x ≠ y → separator ∉ p ++ x :: y :: s →
  DamerauLevenshtein (p ++ x :: y :: s) (p ++ y :: x :: s) = Some 1 ∧
  RecursiveLevenshtein (p ++ x :: y :: s) (p ++ y :: x :: s) = 2.
Proof.
  intros Hxy Hsep. split.
  - rewrite DamerauLevenshtein_reference by by left.
    by rewrite damerau_reference_prefix, damerau_reference_swap.
  - by rewrite RecursiveLevenshtein_prefix, RecursiveLevenshtein_swap.
Qed.

Lemma DamerauLevenshtein_adjacent_swap_witness :
  DamerauLevenshtein ([97] ++ 98 :: 99 :: [100]) ([97] ++ 99 :: 98 :: [100]) = Some 1 ∧
  RecursiveLevenshtein ([97] ++ 98 :: 99 :: [100]) ([97] ++ 99 :: 98 :: [100]) = 2.
Proof.
  apply (DamerauLevenshtein_adjacent_swap [97] [100] 98 99); [lia|].
  compute_done.
Defined.

(** X17. [JaroSimilarity] never panics. Equal strings score 1. Distinct
    strings score 0 when no character of the first equals a character of the
    second at most [max(len a, len b) / 2 - 1] positions away; when some
    character does, the score is the expression over integer counts
    [matches] and [transpositions] with
    [1 <= matches <= min(len a, len b)] and [0 <= 2 * transpositions <= matches]. *)
Theorem JaroSimilarity_returns (inputString targetString : gostring) :
  is_Some (JaroSimilarity inputString targetString) ∧
  (inputString = targetString →
     JaroSimilarity inputString targetString = Some one) ∧
  (inputString ≠ targetString →
   ¬ common_in_window inputString targetString →
     JaroSimilarity inputString targetString = Some zero) ∧
  (inputString ≠ targetString →
   common_in_window inputString targetString →
     ∃ matches transpositions,
       1 ≤ matches ≤ Z.min (len inputString) (len targetString) ∧
       0 ≤ transpositions ∧ 2 * transpositions ≤ matches ∧
       JaroSimilarity inputString targetString =
         Some (jaro_value matches transpositions
                 (len inputString) (len targetString))).
Proof.
  split; [apply JaroSimilarity_total|]. split; [|split].
  - intros ->. unfold JaroSimilarity, eqstr. by rewrite bool_decide_eq_true_2.
  - intros Hne. by apply JaroSimilarity_window.
  - intros Hne. by apply JaroSimilarity_window.
Qed.

Lemma JaroSimilarity_returns_witness :
  (∃ matches transpositions,
     1 ≤ matches ≤ Z.min (len (str "almni")) (len (str "alumni")) ∧
     0 ≤ transpositions ∧ 2 * transpositions ≤ matches ∧
     JaroSimilarity (str "almni") (str "alumni") =
       Some (jaro_value matches transpositions
               (len (str "almni")) (len (str "alumni")))) ∧
  JaroSimilarity (str "ab") (str "ba") = Some zero.
Proof.
  split.
  - apply (proj2 (proj2 (proj2 (JaroSimilarity_returns (str "almni") (str "alumni")))));
      [compute_done|].
    exists 0%nat, 0%nat, 97. repeat split; compute_done.
  - apply (proj1 (proj2 (proj2 (JaroSimilarity_returns (str "ab") (str "ba")))));
      [compute_done|].
    intros (i & j & c & _ & Ha & Hb & Hnear).
    change (max_match_distance (len (str "ab")) (len (str "ba"))) with 0 in Hnear.
    assert (i = j) as -> by lia.
    destruct j as [|[|j]]; vm_compute in Ha, Hb; congruence.
Defined.

(** X18. [JaroSimilarity] of two strings with no byte in common, not both
    empty, is 0; so is that of a non-empty string and the empty one. *)
Theorem JaroSimilarity_no_common_byte (inputString targetString : gostring) :
  disjoint inputString targetString →
  inputString ≠ [] ∨ targetString ≠ [] →
  JaroSimilarity inputString targetString = Some zero.
Proof. apply JaroSimilarity_disjoint. Qed.

Lemma JaroSimilarity_no_common_byte_witness :
  JaroSimilarity [97; 98; 99] [] = Some zero.
Proof.
  apply (JaroSimilarity_no_common_byte [97; 98; 99] []).
  - apply disjoint_Forall. compute_done.
  - by left.
Defined.

(** X19. No candidate scores above the likelihood [SuggestWord] returns. *)
Theorem SuggestWord_maximal (inputString : gostring) (validStrings : list gostring)
    (algorithm : SimilarityAlgorithm) (r : Suggestion) :
  SuggestWord inputString validStrings algorithm = Some r →
  Forall (λ c, ∃ sc, algorithm inputString c = Some sc ∧
                     gt sc (Likelihood r) = false) validStrings.
Proof.
  intros H. apply Forall_forall. intros c Hc.
  by apply (SuggestWord_dominated _ _ _ _ H).
Qed.

Lemma SuggestWord_maximal_witness :
  Forall (λ c, ∃ sc, JaroSimilarity (str "almni") c = Some sc ∧
                     gt sc (S754_finite false 15845148 (-24)) = false)
    [str "hi"; str "alumni"; str "almni "].
Proof.
  apply (SuggestWord_maximal (str "almni") [str "hi"; str "alumni"; str "almni "]
           JaroSimilarity
           {| Likelihood := S754_finite false 15845148 (-24); Word := str "alumni" |}).
  by vm_compute.
Defined.

(** X20. [SuggestWord] and [SuggestWordWithThreshold] return exactly when
    the similarity function returns on every candidate: a panic of the
    function on one candidate is a panic of the selector, and nothing else
    is. *)
Theorem SuggestWord_returns_iff (inputString : gostring)
    (validStrings : list gostring) (threshold : float32)
    (algorithm : SimilarityAlgorithm) :
  (is_Some (SuggestWord inputString validStrings algorithm) ↔
   Forall (λ c, is_Some (algorithm inputString c)) validStrings) ∧
  (is_Some (SuggestWordWithThreshold inputString validStrings threshold algorithm) ↔
   Forall (λ c, is_Some (algorithm inputString c)) validStrings).
Proof.
  pose proof (SuggestWord_is_Some inputString validStrings algorithm) as H.
  split; [done|]. rewrite <- H. unfold SuggestWordWithThreshold.
  destruct (SuggestWord inputString validStrings algorithm);
    simpl; split; intros [? ?]; done || by eexists.
Qed.

(** X21. [SuggestWord] returns likelihood 0 and the empty word exactly when
    every candidate has a score and none is greater than 0. *)
Theorem SuggestWord_empty_suggestion_iff (inputString : gostring)
    (validStrings : list gostring) (algorithm : SimilarityAlgorithm) :
  SuggestWord inputString validStrings algorithm
    = Some {| Likelihood := zero; Word := [] |} ↔
  Forall (λ c, ∃ sc, algorithm inputString c = Some sc ∧ gt sc zero = false)
    validStrings.
Proof. apply SuggestWord_empty_iff. Qed.

(** X22. Candidates that already occur in the list, appended to it again, do
    not change what [SuggestWord] returns. *)
Theorem SuggestWord_repeated_candidates (inputString : gostring)
    (validStrings again : list gostring) (algorithm : SimilarityAlgorithm) :
  again ⊆ validStrings →
  SuggestWord inputString (validStrings ++ again) algorithm
  = SuggestWord inputString validStrings algorithm.
Proof. intros H. unfold SuggestWord. by rewrite suggest_loop_rescan. Qed.

Lemma SuggestWord_repeated_candidates_witness :
  SuggestWord (str "almni") ([str "hi"; str "alumni"] ++ [str "alumni"; str "hi"])
    JaroSimilarity
  = SuggestWord (str "almni") [str "hi"; str "alumni"] JaroSimilarity.
Proof.
  apply (SuggestWord_repeated_candidates (str "almni") [str "hi"; str "alumni"]
           [str "alumni"; str "hi"] JaroSimilarity).
  compute_done.
Defined.

(** X23. A non-empty word returned by [SuggestWordWithThreshold] is one of
    the candidates; its score is greater than the threshold and than 0, and
    no candidate scores above it. *)
Theorem SuggestWordWithThreshold_result (inputString : gostring)
    (validStrings : list gostring) (threshold : float32)
    (algorithm : SimilarityAlgorithm) (w : gostring) :
  SuggestWordWithThreshold inputString validStrings threshold algorithm = Some w →
  w = [] ∨
  (w ∈ validStrings ∧
   ∃ score, algorithm inputString w = Some score ∧
            gt score threshold = true ∧ gt score zero = true ∧
            Forall (λ c, ∃ sc, algorithm inputString c = Some sc ∧
                               gt sc score = false) validStrings).
Proof.
  unfold SuggestWordWithThreshold. intros H.
  destruct (SuggestWord inputString validStrings algorithm) as [r|] eqn:Hr;
    simpl in H; [|done].
  injection H as <-.
  destruct (gt (Likelihood r) threshold) eqn:Hgt; simpl; [|by left].
  destruct (SuggestWord_selected _ _ _ _ Hr) as [[= _ ->]|(Hin & Hpos & Hval)];
    [by left|]. simpl in *.
  right. split; [done|]. exists (Likelihood r). repeat split; try done.
  apply Forall_forall. intros c Hc.
  by apply (SuggestWord_dominated _ _ _ _ Hr).
Qed.

Lemma SuggestWordWithThreshold_result_witness :
  str "alumni" = [] ∨
  (str "alumni" ∈ [str "hi"; str "alumni"] ∧
   ∃ score, JaroSimilarity (str "almni") (str "alumni") = Some score ∧
            gt score (S754_finite false 15845147 (-24)) = true ∧
            gt score zero = true ∧
            Forall (λ c, ∃ sc, JaroSimilarity (str "almni") c = Some sc ∧
                               gt sc score = false) [str "hi"; str "alumni"]).
Proof.
  apply (SuggestWordWithThreshold_result (str "almni") [str "hi"; str "alumni"]
           (S754_finite false 15845147 (-24)) JaroSimilarity (str "alumni")).
  by vm_compute.
Defined.

(** X24. Lowering the threshold keeps a word that
    [SuggestWordWithThreshold] returned. *)
Theorem SuggestWordWithThreshold_monotone (inputString : gostring)
    (validStrings : list gostring) (lower threshold : float32)
    (algorithm : SimilarityAlgorithm) (w : gostring) :
  SFleb lower threshold = true → w ≠ [] →
  SuggestWordWithThreshold inputString validStrings threshold algorithm = Some w →
  SuggestWordWithThreshold inputString validStrings lower algorithm = Some w.
Proof.
  unfold SuggestWordWithThreshold. intros Hle Hw H.
  destruct (SuggestWord inputString validStrings algorithm) as [r|];
    simpl in *; [|done].
  destruct (gt (Likelihood r) threshold) eqn:Hgt; simpl in H; [|by injection H as <-].
  unfold gt in *. by rewrite (SFleb_ltb_trans _ _ _ Hle Hgt).
Qed.

Lemma SuggestWordWithThreshold_monotone_witness :
  SuggestWordWithThreshold (str "almni") [str "hi"; str "alumni"]
    (S754_finite false 8388608 (-24)) JaroSimilarity = Some (str "alumni").
Proof.
  apply (SuggestWordWithThreshold_monotone (str "almni") [str "hi"; str "alumni"]
           (S754_finite false 8388608 (-24)) (S754_finite false 15845147 (-24))
           JaroSimilarity (str "alumni")); [by vm_compute|compute_done|by vm_compute].
Defined.

(** X25. [speyl.SuggestWord] never panics and returns what
    [SuggestWordWithSpecificAlgorithm] returns with [JaroSimilarity]. *)
Theorem speyl_SuggestWord_is_Jaro (word : gostring) (validWords : list gostring) :
  is_Some (lib_SuggestWord word validWords) ∧
  lib_SuggestWord word validWords
  = SuggestWordWithSpecificAlgorithm word validWords JaroSimilarity.
Proof.
  assert (lib_SuggestWord word validWords
          = SuggestWordWithSpecificAlgorithm word validWords JaroSimilarity) as H
    by apply lib_SuggestWord_eq.
  split; [|done]. rewrite H. unfold SuggestWordWithSpecificAlgorithm.
  apply SuggestWord_is_Some.
  apply Forall_forall. intros c _. apply JaroSimilarity_total.
Qed.

(** X26. When no candidate has a byte in common with a non-empty word,
    [speyl.SuggestWord] returns likelihood 0 and the empty word. *)
Theorem speyl_SuggestWord_no_common_byte (word : gostring)
    (validWords : list gostring) :
  word ≠ [] → Forall (disjoint word) validWords →
  lib_SuggestWord word validWords = Some {| Likelihood := zero; Word := [] |}.
Proof.
  intros Hne H. rewrite lib_SuggestWord_eq. apply SuggestWord_empty_iff.
  apply Forall_forall. intros c Hc. exists zero. split; [|done].
  apply JaroSimilarity_disjoint; [|by left].
  by apply (proj1 (Forall_forall _ _) H).
Qed.

Lemma speyl_SuggestWord_no_common_byte_witness :
  lib_SuggestWord [97; 98] [[120; 121]; []; [122]]
  = Some {| Likelihood := zero; Word := [] |}.
Proof.
  apply (speyl_SuggestWord_no_common_byte [97; 98] [[120; 121]; []; [122]]); [done|].
  repeat (apply Forall_cons_2; [apply disjoint_Forall; compute_done|]).
  apply Forall_nil_2.
Defined.

(** X27. None of the five similarity functions panics. *)
Theorem similarities_return (a b : gostring) :
  is_Some (LevenshteinSimilarity a b) ∧
  is_Some (RecursiveLevenshteinSimilarity a b) ∧
  is_Some (IndelSimilarity a b) ∧
  is_Some (DamerauLevenshteinSimilarity a b) ∧
  is_Some (JaroSimilarity a b).
Proof.
  repeat split; try (apply CalculateSimilarity_is_Some).
  - unfold LevenshteinDistance. by rewrite DynamicLevenshtein_recursive.
  - done.
  - done.
  - done.
  - apply JaroSimilarity_total.
Qed.

(** X28. [LevenshteinSimilarity], [RecursiveLevenshteinSimilarity] and
    [IndelSimilarity] are symmetric, down to the float32 they return. *)
Theorem similarities_symmetric (a b : gostring) :
  LevenshteinSimilarity a b = LevenshteinSimilarity b a ∧
  RecursiveLevenshteinSimilarity a b = RecursiveLevenshteinSimilarity b a ∧
  IndelSimilarity a b = IndelSimilarity b a.
Proof.
  repeat split; apply CalculateSimilarity_sym.
  - unfold LevenshteinDistance. rewrite !DynamicLevenshtein_recursive.
    by rewrite RecursiveLevenshtein_sym.
  - by rewrite RecursiveLevenshtein_sym.
  - unfold IndelDistance. by rewrite IndelDistance_rec_sym.
Qed.

(** X29. The words [LoadPremadeWords] returns, joined again by CR LF, are
    the content of the file; there is at least one, and none contains
    CR LF. *)
Theorem LoadPremadeWords_round_trip (content : gostring) :
  ∃ words, LoadPremadeWords (Some content) = Some words ∧
    words ≠ [] ∧ Join_crlf words = content ∧
    Forall (λ w, ¬ contains_crlf w) words.
Proof.
  exists (Split_crlf content). split; [done|].
  split; [apply Split_crlf_nonempty|].
  split; [by apply (Join_Split_crlf (length content))|].
  by apply (Split_crlf_pieces (length content)).
Qed.

(** X30. A file without carriage return, one word per line or not, is
    returned as a single word; a file of words free of CR and LF joined by
    CR LF gives back these words. *)
Theorem LoadPremadeWords_line_endings :
  (∀ content, 13 ∉ content → LoadPremadeWords (Some content) = Some [content]) ∧
  (∀ words, words ≠ [] → Forall (λ w, (13 ∉ w) ∧ (10 ∉ w)) words →
     LoadPremadeWords (Some (Join_crlf words)) = Some words).
Proof.
  unfold LoadPremadeWords. simpl. split.
  - intros content H. by rewrite Split_crlf_single.
  - intros words Hne H. by rewrite Split_Join_crlf.
Qed.

Lemma LoadPremadeWords_line_endings_witness :
  LoadPremadeWords (Some [104; 105; 10; 121; 111; 10]) = Some [[104; 105; 10; 121; 111; 10]] ∧
  LoadPremadeWords (Some (Join_crlf [[104; 105]; [121; 111]; []]))
  = Some [[104; 105]; [121; 111]; []].
Proof.
  split.
  - apply (proj1 LoadPremadeWords_line_endings). compute_done.
  - apply (proj2 LoadPremadeWords_line_endings); [done|compute_done].
Defined.
